(** * Rust RCON Heartbeat Monitor: a shallow embedding of [index.js]

    The monitor probes a game server over one of two RCON transports,
    retries a bounded number of times inside a cycle, posts a heartbeat
    when a probe went through and keeps one global counter of failed
    cycles.  This file embeds the JavaScript of the repository (both
    revisions of [index.js] that are shipped) and states the properties
    of the written specification over that embedding.

    Everything the program obtains from the outside world -- what the
    socket libraries deliver, what [axios.post] answers, what
    [Math.random()] and [Date.now()] return -- is an explicit argument
    of the embedded functions. *)

From Stdlib Require Import ZArith QArith List String Ascii Bool Lia.
Import ListNotations.

Set Warnings "-register-all".

Local Open Scope string_scope.
Local Open Scope Z_scope.

(* ================================================================= *)
(** ** JavaScript values the program manipulates *)

Module Js.

(** The result of [parseInt(s, 10)]: an integer, or [NaN] when the text
    does not start with digits.  Every ordering test against [NaN] is
    false, as in JavaScript. *)
Inductive number : Type :=
| NaN
| Int (z : Z).

Definition le (a b : number) : bool :=
  match a, b with
  | Int x, Int y => x <=? y
  | _, _ => false
  end.

Definition lt (a b : number) : bool :=
  match a, b with
  | Int x, Int y => x <? y
  | _, _ => false
  end.

Definition ge (a b : number) : bool :=
  match a, b with
  | Int x, Int y => x >=? y
  | _, _ => false
  end.

(** A finite IEEE 754 double: the integer [significand] times two to the
    [exponent].  Every finite double has this form with a significand
    below [2^53] in magnitude and an exponent of at least [-1074]. *)
Record double : Type := {
  significand : Z;
  exponent : Z
}.

(** The double that holds the integer [z]. *)
Definition of_int (z : Z) : double := {| significand := z; exponent := 0 |}.

(** The rational number [m * 2^e]. *)
Definition dyadic (m e : Z) : Q :=
  if 0 <=? e then inject_Z (m * 2 ^ e) else m # Z.to_pos (2 ^ (- e)).

Definition value (d : double) : Q := dyadic (significand d) (exponent d).

(** A duration handed to [setTimeout]: a product that involved [NaN] is
    [NaN] again, one that overflowed is infinite, any other is the rational
    number of milliseconds that the resulting double holds. *)
Inductive delay : Type :=
| DNaN
| DInfinity (negative : bool)
| Ms (q : Q).

(** [n / 2^s] rounded to the nearest integer, a tie going to the even
    one. *)
Definition nearest_even (n s : Z) : Z :=
  let q := n / 2 ^ s in
  let r := n mod 2 ^ s in
  let half := 2 ^ (s - 1) in
  if r <? half then q
  else if half <? r then q + 1
  else if Z.even q then q else q + 1.

(** A non-negative integer kept to 53 significant bits, rounding to
    nearest, ties to even. *)
Definition to_53_bits (a : Z) : Z :=
  if a <? 2 ^ 53 then a
  else let s := Z.log2 a - 52 in nearest_even a s * 2 ^ s.

(** The double multiplication [d * z] of a double and an integer-valued
    double: the exact product [significand * z * 2^exponent], rounded to 53
    significant bits (to nearest, ties to even), and infinite when that
    reaches [2^1024]. *)
Definition times (d : double) (z : Z) : delay :=
  let n := significand d * z in
  let e := exponent d in
  let rounded := to_53_bits (Z.abs n) in
  let overflow :=
    if 0 <=? e then 2 ^ 1024 <=? rounded * 2 ^ e
    else 2 ^ (1024 - e) <=? rounded in
  if overflow then DInfinity (n <? 0)
  else Ms (dyadic (Z.sgn n * rounded) e).

(** [r * n] for a double [r] and a parsed integer [n]. *)
Definition scale (r : double) (n : number) : delay :=
  match n with
  | NaN => DNaN
  | Int z => times r z
  end.

(** What [JSON.parse] can return.  A numeric field is carried as the
    integer it denotes; the program only ever compares such a field with
    [-1] and with a [Date.now()] reading. *)
Inductive json : Type :=
| JNull
| JBool (b : bool)
| JNum (z : Z)
| JStr (s : string)
| JArr (items : list json)
| JObj (fields : list (string * json)).

(** Errors that reach a [catch] of the program.  [LibError] stands for
    whatever [rcon-client], [ws] or [axios] raised, [SyntaxError] and
    [TypeError] are raised by the language itself, and the other four are
    the errors the program constructs. *)
Inductive Error : Type :=
| LibError (message : string)
| SyntaxError (message : string)
| TypeError (message : string)
| WebRconTimeout
| WebRconParseError (message : string)
| WebRconClosedBeforeAuth
| UnknownTransport (value : string).

Definition message (e : Error) : string :=
  match e with
  | LibError m => m
  | SyntaxError m => m
  | TypeError m => m
  | WebRconTimeout => "WebRCON timeout"
  | WebRconParseError m => "WebRCON parse error: " ++ m
  | WebRconClosedBeforeAuth => "WebRCON connection closed before auth"
  | UnknownTransport v => "Unknown RCON_TRANSPORT: " ++ v
  end.

(** How an evaluation ends: with a value, or with a thrown error (for an
    awaited promise: fulfilled or rejected). *)
Inductive completion (A : Type) : Type :=
| Normal (a : A)
| Throw (e : Error).
Arguments Normal {A} a.
Arguments Throw {A} e.

Definition and_then {A B} (c : completion A) (k : A -> completion B)
  : completion B :=
  match c with
  | Normal a => k a
  | Throw e => Throw e
  end.

(** [JSON.parse] keeps the last of several equal keys. *)
Fixpoint lookup (k : string) (fields : list (string * json)) : option json :=
  match fields with
  | [] => None
  | (k', v) :: rest =>
      match lookup k rest with
      | Some w => Some w
      | None => if String.eqb k k' then Some v else None
      end
  end.

(** [msg.k]: reading a property of [null] throws a [TypeError]; an object
    yields the field or [undefined] ([None]); booleans, numbers, strings
    and arrays have no property of the two names the program reads. *)
Definition get (msg : json) (k : string) : completion (option json) :=
  match msg with
  | JNull =>
      Throw (TypeError
               ("Cannot read properties of null (reading '" ++ k ++ "')"))
  | JObj fields => Normal (lookup k fields)
  | _ => Normal None
  end.

(** [v === n] where [n] is a number or [undefined]. *)
Definition strict_eq (v : option json) (n : option Z) : bool :=
  match v, n with
  | Some (JNum a), Some b => a =? b
  | None, None => true
  | _, _ => false
  end.

(** [String.prototype.toLowerCase] on the ASCII letters. *)
Definition lower (c : ascii) : ascii :=
  let n := nat_of_ascii c in
  if ((65 <=? n) && (n <=? 90))%nat then ascii_of_nat (n + 32) else c.

Fixpoint toLowerCase (s : string) : string :=
  match s with
  | EmptyString => EmptyString
  | String c rest => String (lower c) (toLowerCase rest)
  end.

End Js.

Import Js.

(* ================================================================= *)
(** ** Configuration, observable events and the program state *)

(** The destructured [process.env].  A numeric setting is stored as the
    value [parseInt(SETTING, 10)] that every use site computes from it.
    The settings that only say whom to talk to and for how long
    ([RCON_HOST], [RCON_PORT], [RCON_SECURE], [TIMEOUT_MS],
    [UPTIME_ENDPOINT]) are part of the outside world. *)
Record Config : Type := {
  RCON_PASSWORD : string;
  RCON_COMMAND : string;
  RCON_TRANSPORT : string;
  ATTEMPTS_PER_CYCLE : number;
  JITTER_MS : number;
  CONSECUTIVE_FAILURES_THRESHOLD : number;
  CHECK_INTERVAL : number
}.

(** Calls that leave the process and lines written to the console, in the
    order in which they happen. *)
Inductive event : Type :=
| RconConnect                         (* Rcon.connect(...) *)
| RconSend                            (* rcon.send(RCON_COMMAND) *)
| RconEnd                             (* rcon.end() *)
| WsConstruct                         (* new WebSocket(url, ...) *)
| WsSend (frame : json)               (* ws.send(JSON.stringify(...)) *)
| WsClose                             (* ws.close() *)
| LogUp (preview : string)            (* [UP] ... Response: preview... *)
| HeartbeatPost                       (* axios.post(UPTIME_ENDPOINT) *)
| LogHeartbeat                        (* [HEARTBEAT] Sent to ... *)
| LogAttemptFailed (attempt : Z) (err : Error)   (* [ATTEMPT a/K] ... *)
| Sleep (ms : delay)                  (* sleep(ms) *)
| LogDown (count : Z)                 (* [DOWN] ... *)
| LogWarn (count : Z)                 (* [WARN] ... *)
| UncaughtError (err : Error).        (* an 'error' event that no listener
                                         takes: the process exits *)

(** An [UncaughtError] is not something the program does: it is what Node
    does with an ['error'] event of an emitter without an ['error']
    listener, namely throw it from the event loop, outside every [try],
    so that the process prints it and exits.  The trace keeps it with the
    attempt whose socket raised it; what the trace lists after it is what
    the driver goes on to do as long as the process is there. *)

(** The only mutable global of the program, and the history of events.
    [consecutiveFailures] is a JavaScript number that the program only ever
    sets to 0 and increments; it is carried as the integer it holds. *)
Record World : Type := {
  consecutiveFailures : Z;
  trace : list event
}.

(* ================================================================= *)
(** ** A state-and-exception monad for the asynchronous functions *)

Definition M (A : Type) : Type := World -> completion A * World.

Definition ret {A} (a : A) : M A := fun w => (Normal a, w).

Definition throw {A} (e : Error) : M A := fun w => (Throw e, w).

Definition bind {A B} (m : M A) (k : A -> M B) : M B :=
  fun w =>
    match m w with
    | (Normal a, w') => k a w'
    | (Throw e, w') => (Throw e, w')
    end.

(** [try { m } catch (err) { h err }] *)
Definition try_catch {A} (m : M A) (h : Error -> M A) : M A :=
  fun w =>
    match m w with
    | (Normal a, w') => (Normal a, w')
    | (Throw e, w') => h e w'
    end.

Definition emit (e : event) : M unit :=
  fun w => (Normal tt,
            {| consecutiveFailures := consecutiveFailures w;
               trace := trace w ++ [e] |}).

Definition emit_all (es : list event) : M unit :=
  fun w => (Normal tt,
            {| consecutiveFailures := consecutiveFailures w;
               trace := trace w ++ es |}).

Definition read_failures : M Z :=
  fun w => (Normal (consecutiveFailures w), w).

Definition write_failures (n : Z) : M unit :=
  fun w => (Normal tt, {| consecutiveFailures := n; trace := trace w |}).

(** An external call: it is recorded, then ends the way the outside world
    decided. *)
Definition external {A} (e : event) (outcome : completion A) : M A :=
  fun w => (outcome,
            {| consecutiveFailures := consecutiveFailures w;
               trace := trace w ++ [e] |}).

Declare Scope monad_scope.
Delimit Scope monad_scope with monad.
Notation "x <- m ;; k" := (bind m (fun x => k))
  (at level 61, m at next level, right associativity) : monad_scope.
Notation "m ;; k" := (bind m (fun _ => k))
  (at level 61, right associativity) : monad_scope.
Local Open Scope monad_scope.

(** [sleep(ms)] *)
Definition sleep (ms : delay) : M unit := emit (Sleep ms).

(* ================================================================= *)
(** ** The classic transport: [checkServerClassicRCON] *)

Module Classic.

(** What [rcon-client] does during one attempt.  [rcon.end()] occurs
    twice in the source, after the command and in the [catch]; each call
    has its own outcome. *)
Record Env : Type := {
  connect : completion unit;
  send : completion string;
  end_after_send : completion unit;
  end_in_catch : completion unit
}.

Definition checkServerClassicRCON (env : Env) : M bool :=
  external RconConnect (connect env) ;;
  try_catch
    (response <- external RconSend (send env) ;;
     emit (LogUp (substring 0 100 response)) ;;
     external RconEnd (end_after_send env) ;;
     ret true)
    (fun cmdError =>
       external RconEnd (end_in_catch env) ;;
       throw cmdError).

End Classic.

(* ================================================================= *)
(** ** The WebSocket transport: [checkServerWebRCON] *)

Module WebRcon.

Notation "x <~ c ;; k" := (and_then c (fun x => k))
  (at level 61, c at next level, right associativity).

(** A text frame as [JSON.parse] sees it. *)
Inductive frame : Type :=
| NotJson (why : string)          (* JSON.parse throws a SyntaxError *)
| Json (msg : json).

(** What can wake the promise's executor up after it has returned: the
    four socket events that have a listener, and the timer. *)
Inductive wakeup : Type :=
| OnOpen
| OnMessage (data : frame)
| OnClose
| OnError (err : Error)
| OnTimeout.

Inductive readyState : Type := CONNECTING | OPEN | CLOSING | CLOSED.

(** What the outside world does during one attempt: whether
    [new WebSocket] throws, what [Date.now()] reads, what
    [ws.readyState] is when [cleanup] looks at it, and in which order
    the callbacks are woken up. *)
Record Env : Type := {
  construct : completion unit;
  now : Z;
  state_at_cleanup : readyState;
  arrivals : list wakeup
}.

Inductive promise : Type :=
| Pending
| Fulfilled (v : json)
| Rejected (e : Error).

(** The variables captured by the callbacks.  [live] says that the timer
    and the listeners are still installed; [output] collects what the
    callbacks sent and printed. *)
Record Session : Type := {
  authSuccess : bool;
  commandId : option Z;
  live : bool;
  outcome : promise;
  output : list event
}.

Definition start : Session :=
  {| authSuccess := false; commandId := None; live := true;
     outcome := Pending; output := [] |}.

Definition say (e : event) (s : Session) : Session :=
  {| authSuccess := authSuccess s; commandId := commandId s;
     live := live s; outcome := outcome s; output := output s ++ [e] |}.

(** [cleanup()]: the timer is cleared and, when [ws] is defined, its
    listeners are removed and an open socket is closed. *)
Definition cleanup (ws_defined : bool) (st : readyState) (s : Session)
  : Session :=
  let closing :=
    match ws_defined, st with
    | true, OPEN => [WsClose]
    | _, _ => []
    end in
  {| authSuccess := authSuccess s; commandId := commandId s;
     live := false; outcome := outcome s;
     output := output s ++ closing |}.

(** [resolve(v)] and [reject(e)] settle a pending promise and do nothing
    to a settled one. *)
Definition settle (p : promise) (s : Session) : Session :=
  match outcome s with
  | Pending =>
      {| authSuccess := authSuccess s; commandId := commandId s;
         live := live s; outcome := p; output := output s |}
  | _ => s
  end.

Definition resolve (v : json) : Session -> Session := settle (Fulfilled v).
Definition reject (e : Error) : Session -> Session := settle (Rejected e).

Section Callbacks.

Variable cfg : Config.
Variable env : Env.

Definition authMessage : json :=
  JObj [("Identifier", JNum 1); ("Message", JStr (RCON_PASSWORD cfg));
        ("Name", JStr "monitor"); ("Type", JStr "auth")].

Definition commandMessage (id : Z) : json :=
  JObj [("Identifier", JNum id); ("Message", JStr (RCON_COMMAND cfg));
        ("Name", JStr "monitor"); ("Type", JStr "command")].

(** [ws.on('open', ...)] *)
Definition on_open (s : Session) : Session := say (WsSend authMessage) s.

(** [JSON.parse(data.toString())] *)
Definition parse (data : frame) : completion json :=
  match data with
  | NotJson why => Throw (SyntaxError why)
  | Json msg => Normal msg
  end.

(** [msg.Message ? msg.Message.substring(0, 100) : 'empty']: a falsy
    field gives ['empty'], a string its first hundred characters, and
    any other truthy value has no [substring] method. *)
Definition responsePreview (field : option json) : completion string :=
  match field with
  | None | Some JNull | Some (JBool false) | Some (JNum 0)
  | Some (JStr EmptyString) => Normal "empty"
  | Some (JStr text) => Normal (substring 0 100 text)
  | Some _ => Throw (TypeError "msg.Message.substring is not a function")
  end.

(** The [try] block of the message listener, after the frame has been
    parsed.  [&&] evaluates its right operand only when the left one
    is true. *)
Definition handle (msg : json) (s : Session) : completion Session :=
  is_auth_signal <~
    (if negb (authSuccess s) then
       ident <~ get msg "Identifier" ;; Normal (strict_eq ident (Some (-1)))
     else Normal false) ;;
  if is_auth_signal then
    Normal (say (WsSend (commandMessage (now env)))
              {| authSuccess := true; commandId := Some (now env);
                 live := live s; outcome := outcome s;
                 output := output s |})
  else
    is_response <~
      (if authSuccess s then
         ident <~ get msg "Identifier" ;;
         Normal (strict_eq ident (commandId s))
       else Normal false) ;;
    if is_response then
      field <~ get msg "Message" ;;
      preview <~ responsePreview field ;;
      Normal (resolve (JBool true)
                (cleanup true (state_at_cleanup env)
                   (say (LogUp preview) s)))
    else Normal s.

(** [ws.on('message', ...)] *)
Definition on_message (data : frame) (s : Session) : Session :=
  match (msg <~ parse data ;; handle msg s) with
  | Normal s' => s'
  | Throw parseErr =>
      reject (WebRconParseError (message parseErr))
        (cleanup true (state_at_cleanup env) s)
  end.

(** [ws.on('close', ...)] *)
Definition on_close (s : Session) : Session :=
  if negb (authSuccess s) then
    reject WebRconClosedBeforeAuth
      (cleanup true (state_at_cleanup env) s)
  else s.

(** [ws.on('error', ...)] *)
Definition on_error (err : Error) (s : Session) : Session :=
  reject err (cleanup true (state_at_cleanup env) s).

(** The [setTimeout] callback. *)
Definition on_timeout (s : Session) : Session :=
  reject WebRconTimeout (cleanup true (state_at_cleanup env) s).

(** One wake-up.  After [cleanup] the timer is cleared and the socket has
    no listener left, so no code of the program runs any more.  But the
    socket is still there ([cleanup] closes it only when it is open), and
    an ['error'] event that it emits without a listener is thrown by the
    event emitter as an uncaught exception, which ends the process. *)
Definition deliver (s : Session) (w : wakeup) : Session :=
  if live s then
    match w with
    | OnOpen => on_open s
    | OnMessage data => on_message data s
    | OnClose => on_close s
    | OnError err => on_error err s
    | OnTimeout => on_timeout s
    end
  else
    match w with
    | OnError err => say (UncaughtError err) s
    | _ => s
    end.

Definition run (ws : list wakeup) : Session := fold_left deliver ws start.

(** The session once the promise is settled: a promise that the
    arrivals left pending is rejected by the timer, which is still
    armed then. *)
Definition finish (s : Session) : Session :=
  match outcome s with
  | Pending => on_timeout s
  | _ => s
  end.

Definition awaited (s : Session) : completion json :=
  match outcome s with
  | Fulfilled v => Normal v
  | Rejected e => Throw e
  | Pending => Throw WebRconTimeout
  end.

(** What the function appends to the trace is what the callbacks sent and
    printed.  Arrivals that follow the one that settled the promise reach
    the socket while the driver is already going on; the trace lists what
    they cause with the attempt whose socket they belong to, so the place
    of an [UncaughtError] tells the attempt, not the moment. *)
Definition checkServerWebRCON : M json :=
  emit WsConstruct ;;
  match construct env with
  | Throw err =>
      (* the synchronous [catch (err)]: [ws] is still undefined *)
      let s := reject err (cleanup false (state_at_cleanup env) start) in
      emit_all (output s) ;;
      fun w => (awaited s, w)
  | Normal _ =>
      let s := finish (run (arrivals env)) in
      emit_all (output s) ;;
      fun w => (awaited s, w)
  end.

End Callbacks.

End WebRcon.

(* ================================================================= *)
(** ** The cycle driver: [checkServerWithRetry] *)

(** Both revisions of [index.js] have the same retry loop, [catch] block
    and failure bookkeeping; they differ in the [try] block only.  The
    common part is embedded once, over an arbitrary [try] block. *)
Section Cycle.

Variable cfg : Config.

(** The values [attempt] takes in
    [for (let attempt = 1; attempt <= K; attempt++)]; the body assigns
    neither [attempt] nor the bound. *)
Definition attempt_indices (K : number) : list Z :=
  match K with
  | NaN => []
  | Int k => map Z.of_nat (seq 1 (Z.to_nat k))
  end.

(** [if (attempt < K) { jitter = Math.random() * JITTER_MS; sleep(jitter) }] *)
Definition jitter (attempt : Z) (random : double) : list event :=
  if lt (Int attempt) (ATTEMPTS_PER_CYCLE cfg)
  then [Sleep (scale random (JITTER_MS cfg))]
  else [].

(** The [catch (err)] block of the loop. *)
Definition attempt_failed (attempt : Z) (random : double) (err : Error)
  : M unit :=
  emit (LogAttemptFailed attempt err) ;;
  if lt (Int attempt) (ATTEMPTS_PER_CYCLE cfg)
  then sleep (scale random (JITTER_MS cfg))
  else ret tt.

(** The line printed after a failed cycle. *)
Definition classify (count : Z) : event :=
  if ge (Int count) (CONSECUTIVE_FAILURES_THRESHOLD cfg)
  then LogDown count
  else LogWarn count.

(** The statements after the loop. *)
Definition cycle_failed : M bool :=
  n <- read_failures ;;
  write_failures (n + 1) ;;
  count <- read_failures ;;
  emit (classify count) ;;
  ret false.

Variable try_block : Z -> M unit.
Variable random : Z -> double.

(** [try { ...; return true } catch (err) { ... }], once per index, and
    the statements after the loop when no iteration returned. *)
Fixpoint attempt_loop (indices : list Z) : M bool :=
  match indices with
  | [] => cycle_failed
  | attempt :: rest =>
      fun w =>
        match try_block attempt w with
        | (Normal _, w') => (Normal true, w')
        | (Throw err, w') =>
            (attempt_failed attempt (random attempt) err ;;
             attempt_loop rest) w'
        end
  end.

Definition retry_cycle : M bool :=
  attempt_loop (attempt_indices (ATTEMPTS_PER_CYCLE cfg)).

End Cycle.

(** What the outside world does during one attempt. *)
Record AttemptEnv : Type := {
  classic : Classic.Env;
  web : WebRcon.Env;
  post : completion unit;          (* axios.post(UPTIME_ENDPOINT) *)
  random : double                  (* Math.random() *)
}.

(** The [if / else if / else] that selects the transport. *)
Definition exchange (cfg : Config) (transport : string) (e : AttemptEnv)
  : M unit :=
  if String.eqb transport "classic" then
    Classic.checkServerClassicRCON (classic e) ;; ret tt
  else if String.eqb transport "web" then
    WebRcon.checkServerWebRCON cfg (web e) ;; ret tt
  else
    throw (UnknownTransport (RCON_TRANSPORT cfg)).

(** The [try] block of the current revision, up to its [return true]. *)
Definition try_block (cfg : Config) (transport : string) (e : AttemptEnv)
  : M unit :=
  exchange cfg transport e ;;
  write_failures 0 ;;
  external HeartbeatPost (post e) ;;
  emit LogHeartbeat.

Definition checkServerWithRetry (cfg : Config) (env : Z -> AttemptEnv)
  : M bool :=
  let transport := toLowerCase (RCON_TRANSPORT cfg) in
  retry_cycle cfg (fun attempt => try_block cfg transport (env attempt))
    (fun attempt => random (env attempt)).

(** The first revision ([src/index.js]): classic transport only, with the
    exchange, the reset and the heartbeat inside one inner [try]. *)
Module Legacy.

Definition try_block (e : AttemptEnv) : M unit :=
  external RconConnect (Classic.connect (classic e)) ;;
  try_catch
    (response <- external RconSend (Classic.send (classic e)) ;;
     emit (LogUp (substring 0 100 response)) ;;
     external RconEnd (Classic.end_after_send (classic e)) ;;
     write_failures 0 ;;
     external HeartbeatPost (post e) ;;
     emit LogHeartbeat)
    (fun cmdError =>
       external RconEnd (Classic.end_in_catch (classic e)) ;;
       throw cmdError).

Definition checkServerWithRetry (cfg : Config) (env : Z -> AttemptEnv)
  : M bool :=
  retry_cycle cfg (fun attempt => try_block (env attempt))
    (fun attempt => random (env attempt)).

End Legacy.

(** The body of [while (true)] in [loop], once per element of [envs]: the
    first [n] cycles of the process.  A cycle that threw would end the
    loop. *)
Section Loop.

Variable cfg : Config.
Variable cycle : (Z -> AttemptEnv) -> M bool.

Fixpoint cycles (envs : list (Z -> AttemptEnv)) : M (list bool) :=
  match envs with
  | [] => ret []
  | env :: rest =>
      up <- cycle env ;;
      sleep (scale (of_int 1000) (CHECK_INTERVAL cfg)) ;;
      ups <- cycles rest ;;
      ret (up :: ups)
  end.

End Loop.

Definition loop (cfg : Config) : list (Z -> AttemptEnv) -> M (list bool) :=
  cycles cfg (checkServerWithRetry cfg).

(** [let consecutiveFailures = 0;] before anything has happened. *)
Definition boot : World := {| consecutiveFailures := 0; trace := [] |}.

(* ================================================================= *)
(** ** Vocabulary of the statements *)

Local Open Scope list_scope.

Definition failed {A} (c : completion A) : bool :=
  match c with
  | Normal _ => false
  | Throw _ => true
  end.

(** A computation whose control flow does not read the world can be
    summarised by running it once, in a world whose counter is not 0:
    how it ends, whether it reset the counter, and what it appended to
    the trace. *)
Definition probe : World := {| consecutiveFailures := 1; trace := [] |}.

Definition result_of {A} (m : M A) : completion A := fst (m probe).

Definition resets {A} (m : M A) : bool :=
  consecutiveFailures (snd (m probe)) =? 0.

Definition events_of {A} (m : M A) : list event := trace (snd (m probe)).

Definition after_events (reset : bool) (es : list event) (w : World) : World :=
  {| consecutiveFailures := if reset then 0 else consecutiveFailures w;
     trace := trace w ++ es |}.

Definition uniform {A} (m : M A) : Prop :=
  exists r reset es, forall w, m w = (r, after_events reset es w).

(** Everything one iteration of the retry loop appends to the trace. *)
Definition attempt_events (cfg : Config) (tb : Z -> M unit) (rnd : Z -> double)
  (a : Z) : list event :=
  events_of (tb a) ++
  match result_of (tb a) with
  | Throw err => LogAttemptFailed a err :: jitter cfg a (rnd a)
  | Normal _ => []
  end.

(** The events a run appended to the trace it started from. *)
Definition appended (before after : World) : list event :=
  skipn (List.length (trace before)) (trace after).

(** The [try] block of attempt [e] runs to its [return true]: the
    exchange went through and the heartbeat was delivered. *)
Definition attempt_succeeds (cfg : Config) (e : AttemptEnv) : bool :=
  negb (failed (result_of
                  (try_block cfg (toLowerCase (RCON_TRANSPORT cfg)) e))).

(** The RCON exchange of attempt [e] went through, whatever happens to the
    heartbeat afterwards. *)
Definition exchange_succeeds (cfg : Config) (e : AttemptEnv) : bool :=
  negb (failed (result_of
                  (exchange cfg (toLowerCase (RCON_TRANSPORT cfg)) e))).

Definition legacy_attempt_succeeds (e : AttemptEnv) : bool :=
  negb (failed (result_of (Legacy.try_block e))).


(** Settings and outside worlds used to exercise the statements: three
    attempts per cycle, a threshold of two failed cycles (the scenarios of
    the written specification), over each transport and over a transport
    name the program does not know. *)
Definition settings (transport : string) (attempts threshold : Z) : Config :=
  {| RCON_PASSWORD := "secret"; RCON_COMMAND := "status";
     RCON_TRANSPORT := transport;
     ATTEMPTS_PER_CYCLE := Int attempts; JITTER_MS := Int 300;
     CONSECUTIVE_FAILURES_THRESHOLD := Int threshold;
     CHECK_INTERVAL := Int 60 |}.

Definition classic_up : Classic.Env :=
  {| Classic.connect := Normal tt; Classic.send := Normal "hostname: X";
     Classic.end_after_send := Normal tt; Classic.end_in_catch := Normal tt |}.

Definition classic_refused : Classic.Env :=
  {| Classic.connect := Throw (LibError "ECONNREFUSED");
     Classic.send := Normal EmptyString; Classic.end_after_send := Normal tt;
     Classic.end_in_catch := Normal tt |}.

Definition auth_signal : json :=
  JObj [("Identifier", JNum (-1)); ("Message", JStr EmptyString); ("Type", JStr "Generic")].

Definition answer (id : Z) (text : string) : json :=
  JObj [("Identifier", JNum id); ("Message", JStr text); ("Type", JStr "Generic")].

Definition socket (events : list WebRcon.wakeup) : WebRcon.Env :=
  {| WebRcon.construct := Normal tt; WebRcon.now := 1700000000000;
     WebRcon.state_at_cleanup := WebRcon.OPEN; WebRcon.arrivals := events |}.

(** Scenario D: the auth signal, then the answer to the command. *)
Definition web_up : WebRcon.Env :=
  socket [WebRcon.OnOpen;
          WebRcon.OnMessage (WebRcon.Json auth_signal);
          WebRcon.OnMessage (WebRcon.Json (answer 1700000000000 "hostname: X"))].

(** The server never answers: the timer ends the attempt. *)
Definition web_silent : WebRcon.Env := socket [WebRcon.OnOpen].

Definition outside (c : Classic.Env) (s : WebRcon.Env) (p : completion unit)
  : AttemptEnv :=
  {| classic := c; web := s; post := p; random := {| significand := 1; exponent := -1 |} |}.

Definition server_up : AttemptEnv := outside classic_up web_up (Normal tt).
Definition server_down : AttemptEnv :=
  outside classic_refused web_silent (Normal tt).
Definition collector_down : AttemptEnv :=
  outside classic_up web_up (Throw (LibError "Request failed with status code 503")).

(** Scenario A: the first attempt times out, the second succeeds. *)
Definition scenario_A (attempt : Z) : AttemptEnv :=
  if attempt =? 1 then server_down else server_up.

(** A uniform computation that leaves the counter alone. *)
Definition passive {A} (m : M A) : Prop :=
  exists r es, forall w, m w = (r, after_events false es w).

(** The counter over cycles: a cycle that returns [true] leaves it at 0, a
    cycle that returns [false] without any of its attempts having reset the
    counter leaves it one higher, and it never becomes negative. *)
Definition counts_failed_cycles (cfg : Config)
  (cycle : (Z -> AttemptEnv) -> M bool) (reset_in : AttemptEnv -> bool) : Prop :=
  forall env w,
    (fst (cycle env w) = Normal true ->
     consecutiveFailures (snd (cycle env w)) = 0) /\
    (fst (cycle env w) = Normal false ->
     (forall a, In a (attempt_indices (ATTEMPTS_PER_CYCLE cfg)) ->
                reset_in (env a) = false) ->
     consecutiveFailures (snd (cycle env w)) = consecutiveFailures w + 1) /\
    (0 <= consecutiveFailures w ->
     0 <= consecutiveFailures (snd (cycle env w))).

(** Over the cycles of the process: a run of cycles in which no exchange
    ever goes through consists of failures only and adds their number to
    the counter; and the counter never becomes negative. *)
Definition counts_in_a_row (cfg : Config)
  (cycle : (Z -> AttemptEnv) -> M bool) (reset_in : AttemptEnv -> bool) : Prop :=
  forall envs w,
    ((forall env a, In env envs ->
                    In a (attempt_indices (ATTEMPTS_PER_CYCLE cfg)) ->
                    reset_in (env a) = false) ->
     fst (cycles cfg cycle envs w)
     = Normal (repeat false (List.length envs)) /\
     consecutiveFailures (snd (cycles cfg cycle envs w))
     = consecutiveFailures w + Z.of_nat (List.length envs)) /\
    (0 <= consecutiveFailures w ->
     0 <= consecutiveFailures (snd (cycles cfg cycle envs w))).

Definition legacy_exchange_succeeds (e : AttemptEnv) : bool :=
  negb (failed (Classic.connect (classic e))) &&
  negb (failed (Classic.send (classic e))) &&
  negb (failed (Classic.end_after_send (classic e))).

(** The counter as the specification words it: after cycles that all
    failed, it equals their number. *)
Definition counter_equals_failures_in_a_row (cfg : Config)
  (envs : list (Z -> AttemptEnv)) : Prop :=
  fst (loop cfg envs boot) = Normal (repeat false (List.length envs)) ->
  consecutiveFailures (snd (loop cfg envs boot)) = Z.of_nat (List.length envs).

(** A frame that the message listener takes for the end of the handshake:
    its [Identifier] is the number -1. *)
Definition is_auth_signal (msg : json) : bool :=
  match get msg "Identifier" with
  | Normal ident => strict_eq ident (Some (-1))
  | Throw _ => false
  end.

(** Anything that can wake the session up, except the auth signal. *)
Definition before_signal (w : WebRcon.wakeup) : bool :=
  match w with
  | WebRcon.OnMessage (WebRcon.Json msg) => negb (is_auth_signal msg)
  | _ => true
  end.

(** What the session lets pass before the auth signal without failing:
    the [open] event and well-formed frames that are not the signal. *)
Definition quiet_before (w : WebRcon.wakeup) : bool :=
  match w with
  | WebRcon.OnOpen => true
  | WebRcon.OnMessage (WebRcon.Json msg) =>
      match get msg "Identifier" with
      | Normal ident => negb (strict_eq ident (Some (-1)))
      | Throw _ => false
      end
  | _ => false
  end.

(** What the session lets pass after the command [id] was sent: [open] and
    [close] events and well-formed frames with another [Identifier]. *)
Definition quiet_after (id : Z) (w : WebRcon.wakeup) : bool :=
  match w with
  | WebRcon.OnOpen | WebRcon.OnClose => true
  | WebRcon.OnMessage (WebRcon.Json msg) =>
      match get msg "Identifier" with
      | Normal ident => negb (strict_eq ident (Some id))
      | Throw _ => false
      end
  | _ => false
  end.

(** The specification's reading of Scenario D: the command execution
    returns the text of the answer. *)
Definition returns_message_text (cfg : Config) (env : WebRcon.Env)
  (text : string) : Prop :=
  fst (WebRcon.checkServerWebRCON cfg env boot) = Normal (JStr text).

(** The events of a protocol client. *)
Definition protocol_event (e : event) : bool :=
  match e with
  | RconConnect | RconSend | RconEnd
  | WsConstruct | WsSend _ | WsClose | LogUp _ | UncaughtError _ => true
  | _ => false
  end.

(** The delays slept in a piece of trace, and the number of heartbeats
    posted in it. *)
Definition sleeps (es : list event) : list delay :=
  flat_map (fun e => match e with Sleep d => [d] | _ => [] end) es.

Definition posts (es : list event) : nat :=
  List.length (filter (fun e => match e with HeartbeatPost => true | _ => false end) es).

(** The session is waiting for the auth signal. *)
Definition awaiting_signal (s : WebRcon.Session) : Prop :=
  WebRcon.authSuccess s = false /\ WebRcon.live s = true /\
  WebRcon.outcome s = WebRcon.Pending.

(** The session has sent its command and is waiting for the answer. *)
Definition awaiting_answer (cfg : Config) (env : WebRcon.Env)
  (s : WebRcon.Session) : Prop :=
  WebRcon.authSuccess s = true /\
  WebRcon.commandId s = Some (WebRcon.now env) /\
  WebRcon.live s = true /\ WebRcon.outcome s = WebRcon.Pending /\
  In (WsSend (WebRcon.commandMessage cfg (WebRcon.now env))) (WebRcon.output s).

(** The specification's reading of an unknown transport: fatal, so no
    attempt failure is logged and no retry delay is slept. *)
Definition fatal_without_retry (cfg : Config) (env : Z -> AttemptEnv) : Prop :=
  (forall a err,
      ~ In (LogAttemptFailed a err)
          (trace (snd (checkServerWithRetry cfg env boot)))) /\
  sleeps (trace (snd (checkServerWithRetry cfg env boot))) = [].

(** The specification's reading of an undelivered heartbeat: the counter
    does not grow, the error is not logged as the failure of an attempt,
    and the collector is called at most once in the cycle. *)
Definition heartbeat_failure_kept_apart (cfg : Config) (env : Z -> AttemptEnv)
  (w : World) : Prop :=
  consecutiveFailures (snd (checkServerWithRetry cfg env w))
  <= consecutiveFailures w /\
  (forall a err,
      post (env a) = Throw err ->
      ~ In (LogAttemptFailed a err)
          (trace (snd (checkServerWithRetry cfg env w)))) /\
  (posts (appended w (snd (checkServerWithRetry cfg env w))) <= 1)%nat.

(** What [Math.random()] returns: a double in the interval from 0 to 1,
    1 excluded. *)
Definition unit_sample (d : double) : Prop :=
  0 <= significand d < 2 ^ 53 /\
  -1074 <= exponent d <= 0 /\
  significand d < 2 ^ (- exponent d).

(** [q] is [exact] up to the rounding of one double operation: it differs
    from it by at most [exact / 2^53]. *)
Definition within_rounding (q exact : Q) : Prop :=
  (inject_Z (2 ^ 53 - 1) * exact <= inject_Z (2 ^ 53) * q /\
   inject_Z (2 ^ 53) * q <= inject_Z (2 ^ 53 + 1) * exact)%Q.

(** The retry delays of a cycle of [k] attempts with jitter bound [j]: one
    delay after each failed attempt that is not the last of the cycle, each
    the double product of that attempt's own [Math.random()] sample and
    [j], and none after the last attempt; the delay after an attempt is the
    exact product of its sample and [j] up to the rounding of the
    multiplication, and lies in the interval from 0 to [j], [j] excluded. *)
Definition jitter_between_failed_attempts (k j : Z)
  (cycle : (Z -> AttemptEnv) -> M bool) (succeeds : AttemptEnv -> bool) : Prop :=
  forall env w,
    let delays := sleeps (appended w (snd (cycle env w))) in
    let delay_after := fun a => scale (random (env a)) (Int j) in
    (fst (cycle env w) = Normal false ->
     delays = map delay_after (attempt_indices (Int (k - 1)))) /\
    (forall a, 1 <= a <= k -> succeeds (env a) = true ->
       (forall b, 1 <= b < a -> succeeds (env b) = false) ->
       delays = map delay_after (attempt_indices (Int (a - 1)))) /\
    (forall a, unit_sample (random (env a)) ->
       exists q, delay_after a = Ms q /\
                 (0 <= q /\ q < inject_Z j)%Q /\
                 within_rounding q (value (random (env a)) * inject_Z j)%Q).

(* ================================================================= *)
(** ** Vocabulary of the further properties *)

(** The same settings with another transport name. *)
Definition with_transport (t : string) (cfg : Config) : Config :=
  {| RCON_PASSWORD := RCON_PASSWORD cfg;
     RCON_COMMAND := RCON_COMMAND cfg;
     RCON_TRANSPORT := t;
     ATTEMPTS_PER_CYCLE := ATTEMPTS_PER_CYCLE cfg;
     JITTER_MS := JITTER_MS cfg;
     CONSECUTIVE_FAILURES_THRESHOLD := CONSECUTIVE_FAILURES_THRESHOLD cfg;
     CHECK_INTERVAL := CHECK_INTERVAL cfg |}.

(** The same socket with other arrivals. *)
Definition with_arrivals (ws : list WebRcon.wakeup) (env : WebRcon.Env)
  : WebRcon.Env :=
  {| WebRcon.construct := WebRcon.construct env;
     WebRcon.now := WebRcon.now env;
     WebRcon.state_at_cleanup := WebRcon.state_at_cleanup env;
     WebRcon.arrivals := ws |}.

(** How often something happens in a piece of trace. *)
Definition count (p : event -> bool) (es : list event) : nat :=
  List.length (filter p es).

Definition is_rcon_end (e : event) : bool :=
  match e with RconEnd => true | _ => false end.

Definition is_rcon_send (e : event) : bool :=
  match e with RconSend => true | _ => false end.

Definition is_ws_close (e : event) : bool :=
  match e with WsClose => true | _ => false end.

Definition is_heartbeat_log (e : event) : bool :=
  match e with LogHeartbeat => true | _ => false end.

(** A frame sent with [Type: 'command']. *)
Definition is_command_frame (e : event) : bool :=
  match e with
  | WsSend (JObj fields) =>
      match lookup "Type" fields with
      | Some (JStr kind) => String.eqb kind "command"
      | _ => false
      end
  | _ => false
  end.

(** The attempt numbers of the attempt-failure lines of a piece of trace,
    in order. *)
Definition failed_attempts (es : list event) : list Z :=
  flat_map (fun e => match e with LogAttemptFailed a _ => [a] | _ => [] end) es.

(** How [ws.readyState === WebSocket.OPEN] turns out in [cleanup]. *)
Definition open_at_cleanup (env : WebRcon.Env) : bool :=
  match WebRcon.state_at_cleanup env with
  | WebRcon.OPEN => true
  | _ => false
  end.

(** A server that is down for the classic transport after the connection
    was made: the command fails. *)
Definition classic_hangs : Classic.Env :=
  {| Classic.connect := Normal tt;
     Classic.send := Throw (LibError "Timeout for packet id 1");
     Classic.end_after_send := Normal tt; Classic.end_in_catch := Normal tt |}.

(** The server closes the socket after the handshake without answering. *)
Definition web_closes_after_auth : WebRcon.Env :=
  socket [WebRcon.OnOpen;
          WebRcon.OnMessage (WebRcon.Json auth_signal);
          WebRcon.OnClose].

(** A frame that is not JSON arrives after the handshake, then the answer. *)
Definition web_garbled : WebRcon.Env :=
  socket [WebRcon.OnOpen;
          WebRcon.OnMessage (WebRcon.Json auth_signal);
          WebRcon.OnMessage (WebRcon.NotJson "Unexpected token < in JSON");
          WebRcon.OnMessage (WebRcon.Json (answer 1700000000000 "hostname: X"))].

(** What holds of a WebRCON session at every moment: the timer and the
    listeners are installed exactly while the promise is pending; the
    socket has been closed by the program only in [cleanup], and only if
    it was open then; one command frame has been sent if the session is
    authenticated and none otherwise; and the promise is resolved only
    with [true] and only in an authenticated session. *)
Definition session_sound (env : WebRcon.Env) (s : WebRcon.Session) : Prop :=
  (WebRcon.live s = true <-> WebRcon.outcome s = WebRcon.Pending) /\
  count is_ws_close (WebRcon.output s)
  = (if WebRcon.live s then 0
     else if open_at_cleanup env then 1 else 0)%nat /\
  count is_command_frame (WebRcon.output s)
  = (if WebRcon.authSuccess s then 1 else 0)%nat /\
  (forall v, WebRcon.outcome s = WebRcon.Fulfilled v ->
             v = JBool true /\ WebRcon.authSuccess s = true).

(** The number of failed cycles in a row at the end of a list of cycle
    results, counted on from [before] while no cycle has succeeded. *)
Definition streak (before : Z) (ups : list bool) : Z :=
  fold_left (fun count (up : bool) => if up then 0 else count + 1) ups before.

(** The uncaught exception that an ['error'] event of the socket becomes
    when no listener is left. *)
Definition is_uncaught (e : event) : bool :=
  match e with UncaughtError _ => true | _ => false end.

(** The process does not survive what the trace lists: Node prints an
    uncaught exception and exits. *)
Definition process_exits (es : list event) : bool := existsb is_uncaught es.

(** What the arrivals that reach a settled session leave in the trace:
    one uncaught exception for each socket error among them. *)
Definition uncaught_errors (ws : list WebRcon.wakeup) : list event :=
  flat_map (fun a => match a with
                     | WebRcon.OnError err => [UncaughtError err]
                     | _ => []
                     end) ws.

(** The handshake never completes: the timer of the program fires while
    the socket is still connecting, [cleanup] leaves that socket alone, and
    the handshake timeout of the socket, set to the same delay, raises its
    error after the listeners are gone. *)
Definition web_handshake_hangs : WebRcon.Env :=
  {| WebRcon.construct := Normal tt; WebRcon.now := 1700000000000;
     WebRcon.state_at_cleanup := WebRcon.CONNECTING;
     WebRcon.arrivals :=
       [WebRcon.OnTimeout;
        WebRcon.OnError (LibError "Opening handshake has timed out")] |}.

Definition handshake_hangs : AttemptEnv :=
  outside classic_up web_handshake_hangs (Normal tt).

(* ================================================================= *)
(** ** Uniform computations *)

Lemma after_events_twice r1 es1 r2 es2 w :
  after_events r2 es2 (after_events r1 es1 w)
  = after_events (r1 || r2) (es1 ++ es2) w.
Proof.
  unfold after_events; simpl.
  rewrite app_assoc.
  destruct r1, r2; reflexivity.
Qed.

Lemma after_events_nothing w : after_events false [] w = w.
Proof.
  destruct w; unfold after_events; simpl.
  now rewrite app_nil_r.
Qed.

Lemma appended_after_events r es w : appended w (after_events r es w) = es.
Proof.
  unfold appended, after_events; simpl.
  rewrite skipn_app, skipn_all, Nat.sub_diag.
  reflexivity.
Qed.

Lemma uniform_run {A} (m : M A) :
  uniform m ->
  forall w, m w = (result_of m, after_events (resets m) (events_of m) w).
Proof.
  intros (r & reset & es & Hm) w.
  unfold result_of, resets, events_of.
  rewrite (Hm probe), Hm; simpl.
  destruct reset; reflexivity.
Qed.

Lemma uniform_ret {A} (a : A) : uniform (ret a).
Proof.
  exists (Normal a), false, []; intro w.
  now rewrite after_events_nothing.
Qed.

Lemma uniform_throw {A} (e : Error) : uniform (@throw A e).
Proof.
  exists (Throw e), false, []; intro w.
  now rewrite after_events_nothing.
Qed.

Lemma uniform_pure {A} (c : completion A) : uniform (fun w => (c, w)).
Proof.
  exists c, false, []; intro w.
  now rewrite after_events_nothing.
Qed.

Lemma uniform_emit e : uniform (emit e).
Proof. exists (Normal tt), false, [e]; reflexivity. Qed.

Lemma uniform_emit_all es : uniform (emit_all es).
Proof. exists (Normal tt), false, es; reflexivity. Qed.

Lemma uniform_external {A} e (c : completion A) : uniform (external e c).
Proof. exists c, false, [e]; reflexivity. Qed.

Lemma uniform_reset : uniform (write_failures 0).
Proof.
  exists (Normal tt), true, []; intro w.
  unfold write_failures, after_events; simpl.
  now rewrite app_nil_r.
Qed.

Lemma uniform_bind {A B} (m : M A) (k : A -> M B) :
  uniform m -> (forall a, uniform (k a)) -> uniform (bind m k).
Proof.
  intros (r & reset & es & Hm) Hk.
  destruct r as [a | e].
  - destruct (Hk a) as (r' & reset' & es' & Hka).
    exists r', (reset || reset')%bool, (es ++ es'); intro w.
    unfold bind; rewrite Hm, Hka.
    now rewrite after_events_twice.
  - exists (Throw e), reset, es; intro w.
    unfold bind; now rewrite Hm.
Qed.

Lemma uniform_try_catch {A} (m : M A) (h : Error -> M A) :
  uniform m -> (forall e, uniform (h e)) -> uniform (try_catch m h).
Proof.
  intros (r & reset & es & Hm) Hh.
  destruct r as [a | e].
  - exists (Normal a), reset, es; intro w.
    unfold try_catch; now rewrite Hm.
  - destruct (Hh e) as (r' & reset' & es' & Hhe).
    exists r', (reset || reset')%bool, (es ++ es'); intro w.
    unfold try_catch; rewrite Hm, Hhe.
    now rewrite after_events_twice.
Qed.

Create HintDb uniform.
#[export] Hint Resolve uniform_ret uniform_throw uniform_pure uniform_emit
  uniform_emit_all uniform_external uniform_reset : uniform.

Ltac uniformity :=
  repeat first
    [ solve [ auto with uniform ]
    | apply uniform_bind; [ | intro ]
    | apply uniform_try_catch; [ | intro ] ].

Lemma passive_uniform {A} (m : M A) : passive m -> uniform m.
Proof. intros (r & es & Hm); now exists r, false, es. Qed.

Lemma passive_run {A} (m : M A) :
  passive m ->
  forall w, m w = (result_of m, after_events false (events_of m) w).
Proof.
  intros (r & es & Hm) w.
  unfold result_of, events_of.
  now rewrite (Hm probe), Hm.
Qed.

Lemma passive_ret {A} (a : A) : passive (ret a).
Proof.
  exists (Normal a), []; intro w.
  now rewrite after_events_nothing.
Qed.

Lemma passive_throw {A} (e : Error) : passive (@throw A e).
Proof.
  exists (Throw e), []; intro w.
  now rewrite after_events_nothing.
Qed.

Lemma passive_pure {A} (c : completion A) : passive (fun w => (c, w)).
Proof.
  exists c, []; intro w.
  now rewrite after_events_nothing.
Qed.

Lemma passive_emit e : passive (emit e).
Proof. exists (Normal tt), [e]; reflexivity. Qed.

Lemma passive_emit_all es : passive (emit_all es).
Proof. exists (Normal tt), es; reflexivity. Qed.

Lemma passive_external {A} e (c : completion A) : passive (external e c).
Proof. exists c, [e]; reflexivity. Qed.

Lemma passive_bind {A B} (m : M A) (k : A -> M B) :
  passive m -> (forall a, passive (k a)) -> passive (bind m k).
Proof.
  intros (r & es & Hm) Hk.
  destruct r as [a | e].
  - destruct (Hk a) as (r' & es' & Hka).
    exists r', (es ++ es'); intro w.
    unfold bind; rewrite Hm, Hka.
    now rewrite after_events_twice.
  - exists (Throw e), es; intro w.
    unfold bind; now rewrite Hm.
Qed.

Lemma passive_try_catch {A} (m : M A) (h : Error -> M A) :
  passive m -> (forall e, passive (h e)) -> passive (try_catch m h).
Proof.
  intros (r & es & Hm) Hh.
  destruct r as [a | e].
  - exists (Normal a), es; intro w.
    unfold try_catch; now rewrite Hm.
  - destruct (Hh e) as (r' & es' & Hhe).
    exists r', (es ++ es'); intro w.
    unfold try_catch; rewrite Hm, Hhe.
    now rewrite after_events_twice.
Qed.

Create HintDb passive.
#[export] Hint Resolve passive_ret passive_throw passive_pure passive_emit
  passive_emit_all passive_external : passive.

Ltac passivity :=
  repeat first
    [ solve [ auto with passive ]
    | apply passive_bind; [ | intro ]
    | apply passive_try_catch; [ | intro ] ].

Lemma passive_classic env : passive (Classic.checkServerClassicRCON env).
Proof. unfold Classic.checkServerClassicRCON; passivity. Qed.

Lemma passive_web cfg env : passive (WebRcon.checkServerWebRCON cfg env).
Proof.
  unfold WebRcon.checkServerWebRCON.
  destruct (WebRcon.construct env); passivity.
Qed.

#[export] Hint Resolve passive_classic passive_web : passive.

Lemma passive_exchange cfg transport e : passive (exchange cfg transport e).
Proof.
  unfold exchange.
  destruct (String.eqb transport "classic");
    [ | destruct (String.eqb transport "web") ];
    passivity.
Qed.

Lemma uniform_exchange cfg transport e : uniform (exchange cfg transport e).
Proof. apply passive_uniform, passive_exchange. Qed.

#[export] Hint Resolve uniform_exchange : uniform.

Lemma uniform_try_block cfg transport e : uniform (try_block cfg transport e).
Proof. unfold try_block; uniformity. Qed.

Lemma uniform_legacy_try_block e : uniform (Legacy.try_block e).
Proof. unfold Legacy.try_block; uniformity. Qed.

#[export] Hint Resolve uniform_try_block uniform_legacy_try_block : uniform.

(* ================================================================= *)
(** ** The retry loop in closed form *)

Lemma attempt_indices_spec k a :
  In a (attempt_indices (Int k)) <-> 1 <= a /\ le (Int a) (Int k) = true.
Proof.
  unfold attempt_indices; simpl.
  rewrite in_map_iff, Z.leb_le; split.
  - intros (n & <- & Hn). apply in_seq in Hn. lia.
  - intros [H1 Hk]. exists (Z.to_nat a); split; [ lia | ].
    apply in_seq; lia.
Qed.

Lemma attempt_indices_split k a :
  1 <= a <= k ->
  exists post,
    attempt_indices (Int k) = attempt_indices (Int (a - 1)) ++ a :: post.
Proof.
  intros Ha; unfold attempt_indices.
  replace (Z.to_nat k) with (Z.to_nat (a - 1) + S (Z.to_nat (k - a)))%nat
    by lia.
  rewrite seq_app, map_app, <- cons_seq, map_cons.
  replace (Z.of_nat (1 + Z.to_nat (a - 1))) with a by lia.
  eauto.
Qed.

Lemma attempt_indices_below k a :
  In a (attempt_indices (Int k)) -> 1 <= a <= k.
Proof.
  intro Hin; apply attempt_indices_spec in Hin as [H1 Hk].
  apply Z.leb_le in Hk; lia.
Qed.

Lemma cycle_failed_run cfg w :
  cycle_failed cfg w
  = (Normal false,
     {| consecutiveFailures := consecutiveFailures w + 1;
        trace := trace w ++ [classify cfg (consecutiveFailures w + 1)] |}).
Proof. reflexivity. Qed.

Lemma attempt_failed_run cfg a r err w :
  attempt_failed cfg a r err w
  = (Normal tt, after_events false (LogAttemptFailed a err :: jitter cfg a r) w).
Proof.
  unfold attempt_failed, jitter, bind, emit, sleep, emit, ret, after_events.
  destruct (lt (Int a) (ATTEMPTS_PER_CYCLE cfg)); simpl;
    now rewrite <- ?app_assoc.
Qed.

Lemma first_success (f : Z -> bool) (l : list Z) :
  (forall a, In a l -> f a = true) \/
  (exists pre a post,
      l = pre ++ a :: post /\ (forall b, In b pre -> f b = true) /\ f a = false).
Proof.
  induction l as [ | x l IH ]; [ left; intros a [] | ].
  destruct (f x) eqn:Hx.
  - destruct IH as [ Hall | (pre & a & post & -> & Hpre & Ha) ].
    + left; intros a [ <- | Hin ]; auto.
    + right; exists (x :: pre), a, post; repeat split; auto.
      intros b [ <- | Hin ]; auto.
  - right; exists [], x, l; repeat split; auto.
Qed.

Section ClosedForm.

Variable cfg : Config.
Variable tb : Z -> M unit.
Variable rnd : Z -> double.
Hypothesis tb_uniform : forall a, uniform (tb a).

Let fails (a : Z) : bool := failed (result_of (tb a)).
Let reset_by (a : Z) : bool := resets (tb a).

Lemma loop_step_failed a rest w :
  fails a = true ->
  attempt_loop cfg tb rnd (a :: rest) w
  = attempt_loop cfg tb rnd rest
      (after_events (reset_by a) (attempt_events cfg tb rnd a) w).
Proof.
  unfold fails, reset_by, attempt_events; intro Ha; simpl.
  rewrite (uniform_run _ (tb_uniform a)).
  destruct (result_of (tb a)) as [ | err ]; [ discriminate | ].
  unfold bind; rewrite attempt_failed_run, after_events_twice.
  now rewrite orb_false_r.
Qed.

Lemma loop_step_succeeded a rest w :
  fails a = false ->
  attempt_loop cfg tb rnd (a :: rest) w
  = (Normal true,
     after_events (reset_by a) (attempt_events cfg tb rnd a) w).
Proof.
  unfold fails, reset_by, attempt_events; intro Ha; simpl.
  rewrite (uniform_run _ (tb_uniform a)).
  destruct (result_of (tb a)); [ | discriminate ].
  now rewrite app_nil_r.
Qed.

Lemma loop_all_failed indices w :
  (forall a, In a indices -> fails a = true) ->
  attempt_loop cfg tb rnd indices w
  = cycle_failed cfg
      (after_events (existsb reset_by indices)
         (flat_map (attempt_events cfg tb rnd) indices) w).
Proof.
  revert w; induction indices as [ | a rest IH ]; intros w Hall.
  - simpl; now rewrite after_events_nothing.
  - rewrite loop_step_failed by (apply Hall; now left).
    rewrite IH by (intros b Hb; apply Hall; now right).
    now rewrite after_events_twice.
Qed.

Lemma loop_first_success pre a post w :
  (forall b, In b pre -> fails b = true) ->
  fails a = false ->
  attempt_loop cfg tb rnd (pre ++ a :: post) w
  = (Normal true,
     after_events (existsb reset_by (pre ++ [a]))
       (flat_map (attempt_events cfg tb rnd) (pre ++ [a])) w).
Proof.
  revert w; induction pre as [ | b pre IH ]; intros w Hpre Ha.
  - simpl app; rewrite loop_step_succeeded by assumption.
    simpl; now rewrite app_nil_r, orb_false_r.
  - simpl app; rewrite loop_step_failed by (apply Hpre; now left).
    rewrite IH by (auto; intros c Hc; apply Hpre; now right).
    now rewrite after_events_twice.
Qed.

(** The loop returns, and returns a boolean: nothing thrown by a [try]
    block passes the [catch]. *)
Lemma loop_returns indices w :
  exists up w', attempt_loop cfg tb rnd indices w = (Normal up, w').
Proof.
  destruct (first_success fails indices)
    as [ Hall | (pre & a & post & -> & Hpre & Ha) ].
  - rewrite loop_all_failed, cycle_failed_run by assumption; eauto.
  - rewrite loop_first_success by assumption; eauto.
Qed.

End ClosedForm.

(* ================================================================= *)
(** ** Short-circuit on the first success *)


Section Agreement.

Variable cfg : Config.
Variables tb tb' : Z -> M unit.
Variables rnd rnd' : Z -> double.
Hypothesis tb_uniform : forall a, uniform (tb a).


End Agreement.

Section ShortCircuit.

Variable cfg : Config.
Variable k : Z.
Hypothesis attempts : ATTEMPTS_PER_CYCLE cfg = Int k.

(** The [try] block as a function of what the world does in the attempt. *)
Variable block : AttemptEnv -> M unit.
Hypothesis block_uniform : forall e, uniform (block e).

Let cycle (env : Z -> AttemptEnv) : M bool :=
  retry_cycle cfg (fun a => block (env a)) (fun a => random (env a)).
Let succeeds (e : AttemptEnv) : bool := negb (failed (result_of (block e))).




End ShortCircuit.




(* ================================================================= *)
(** ** Errors of an attempt stay inside the cycle *)

Section Recording.

Variable cfg : Config.
Variable tb : Z -> M unit.
Variable rnd : Z -> double.
Hypothesis tb_uniform : forall a, uniform (tb a).

(** A cycle only ever appends to the trace. *)
Lemma loop_extends_trace indices w :
  exists es, trace (snd (attempt_loop cfg tb rnd indices w)) = trace w ++ es.
Proof.
  destruct (first_success (fun a => failed (result_of (tb a))) indices)
    as [ Hall | (pre & a & post & -> & Hpre & Ha) ].
  - rewrite (loop_all_failed cfg tb rnd tb_uniform) by assumption.
    rewrite cycle_failed_run; simpl.
    rewrite <- app_assoc; eauto.
  - rewrite (loop_first_success cfg tb rnd tb_uniform) by assumption.
    simpl; eauto.
Qed.

Lemma failure_is_logged pre a post w err :
  (forall b, In b pre -> failed (result_of (tb b)) = true) ->
  result_of (tb a) = Throw err ->
  In (LogAttemptFailed a err)
     (trace (snd (attempt_loop cfg tb rnd (pre ++ a :: post) w))).
Proof.
  revert w; induction pre as [ | b pre IH ]; intros w Hpre Ha.
  - simpl app.
    rewrite (loop_step_failed cfg tb rnd tb_uniform) by now rewrite Ha.
    destruct (loop_extends_trace post
                (after_events (resets (tb a)) (attempt_events cfg tb rnd a) w))
      as [es ->].
    unfold attempt_events; rewrite Ha; simpl.
    rewrite !in_app_iff; left; right; right; now left.
  - simpl app.
    rewrite (loop_step_failed cfg tb rnd tb_uniform) by (apply Hpre; now left).
    apply IH; auto.
    intros c Hc; apply Hpre; now right.
Qed.

(** Whatever an attempt that is reached appends to the trace is among
    what the cycle appends. *)
Lemma attempt_is_recorded pre a post w e :
  (forall b, In b pre -> failed (result_of (tb b)) = true) ->
  In e (events_of (tb a)) ->
  exists es,
    trace (snd (attempt_loop cfg tb rnd (pre ++ a :: post) w)) = trace w ++ es /\
    In e es.
Proof.
  revert w; induction pre as [ | b pre IH ]; intros w Hpre He.
  - simpl app.
    destruct (failed (result_of (tb a))) eqn:Ha.
    + rewrite (loop_step_failed cfg tb rnd tb_uniform) by assumption.
      destruct (loop_extends_trace post
                  (after_events (resets (tb a)) (attempt_events cfg tb rnd a) w))
        as [es ->].
      exists (attempt_events cfg tb rnd a ++ es); simpl.
      split; [ now rewrite app_assoc | ].
      unfold attempt_events; rewrite !in_app_iff; auto.
    + rewrite (loop_step_succeeded cfg tb rnd tb_uniform) by assumption.
      exists (attempt_events cfg tb rnd a); split; [ reflexivity | ].
      unfold attempt_events; rewrite in_app_iff; auto.
  - simpl app.
    rewrite (loop_step_failed cfg tb rnd tb_uniform) by (apply Hpre; now left).
    destruct (IH (after_events (resets (tb b)) (attempt_events cfg tb rnd b) w))
      as (es & Heq & Hin); auto.
    { intros c Hc; apply Hpre; now right. }
    exists (attempt_events cfg tb rnd b ++ es); simpl in *.
    split; [ now rewrite Heq, app_assoc | ].
    rewrite in_app_iff; auto.
Qed.

End Recording.

Lemma cycles_continue cfg cycle :
  (forall env w, exists up w', cycle env w = (Normal up, w')) ->
  forall envs w,
  exists ups w',
    cycles cfg cycle envs w = (Normal ups, w') /\
    List.length ups = List.length envs.
Proof.
  intros Hcycle envs; induction envs as [ | env rest IH ]; intro w.
  - exists [], w; split; reflexivity.
  - destruct (Hcycle env w) as (up & w1 & Hrun).
    destruct (IH (snd (sleep (scale (of_int 1000) (CHECK_INTERVAL cfg)) w1)))
      as (ups & w2 & Hrest & Hlen).
    exists (up :: ups), w2; split; [ | simpl; now rewrite Hlen ].
    simpl; unfold bind at 1; rewrite Hrun.
    unfold bind at 1; simpl fst; simpl in Hrest.
    unfold sleep, emit at 1.
    unfold bind at 1; unfold sleep, emit in Hrest; simpl in Hrest.
    now rewrite Hrest.
Qed.

(* ================================================================= *)
(** ** The [try] block of the current revision, case by case *)

Lemma exchange_run cfg t e w :
  exchange cfg t e w
  = (result_of (exchange cfg t e),
     after_events false (events_of (exchange cfg t e)) w).
Proof. apply passive_run, passive_exchange. Qed.

Lemma try_block_run cfg t e w :
  try_block cfg t e w
  = match result_of (exchange cfg t e) with
    | Throw err =>
        (Throw err, after_events false (events_of (exchange cfg t e)) w)
    | Normal _ =>
        match post e with
        | Normal _ =>
            (Normal tt,
             after_events true
               (events_of (exchange cfg t e) ++ [HeartbeatPost; LogHeartbeat]) w)
        | Throw err =>
            (Throw err,
             after_events true
               (events_of (exchange cfg t e) ++ [HeartbeatPost]) w)
        end
    end.
Proof.
  unfold try_block, bind at 1; rewrite exchange_run.
  destruct (result_of (exchange cfg t e)) as [ [] | err ]; [ | reflexivity ].
  unfold bind, write_failures, external, emit, after_events; simpl.
  destruct (post e) as [ [] | err ]; simpl; now rewrite <- !app_assoc.
Qed.

Lemma try_block_resets cfg t e :
  resets (try_block cfg t e) = negb (failed (result_of (exchange cfg t e))).
Proof.
  unfold resets; rewrite try_block_run.
  destruct (result_of (exchange cfg t e)); [ destruct (post e) | ];
    reflexivity.
Qed.

Lemma try_block_result_of cfg t e :
  result_of (try_block cfg t e)
  = match result_of (exchange cfg t e) with
    | Throw err => Throw err
    | Normal _ => post e
    end.
Proof.
  unfold result_of at 1; rewrite try_block_run.
  destruct (result_of (exchange cfg t e)); [ | reflexivity ].
  destruct (post e) as [ [] | ]; reflexivity.
Qed.

Lemma try_block_events_of cfg t e :
  events_of (try_block cfg t e)
  = events_of (exchange cfg t e) ++
    match result_of (exchange cfg t e), post e with
    | Throw _, _ => []
    | Normal _, Normal _ => [HeartbeatPost; LogHeartbeat]
    | Normal _, Throw _ => [HeartbeatPost]
    end.
Proof.
  unfold events_of at 1; rewrite try_block_run.
  destruct (result_of (exchange cfg t e)); [ destruct (post e) | ];
    simpl; now rewrite ?app_nil_r.
Qed.

Lemma try_block_success_resets cfg t e :
  failed (result_of (try_block cfg t e)) = false ->
  resets (try_block cfg t e) = true.
Proof.
  rewrite try_block_resets, try_block_result_of.
  destruct (result_of (exchange cfg t e)); simpl; congruence.
Qed.

Lemma legacy_success_resets e :
  failed (result_of (Legacy.try_block e)) = false ->
  resets (Legacy.try_block e) = true.
Proof.
  destruct e as [[c s e1 e2] ws p r].
  unfold result_of, resets, Legacy.try_block, try_catch, bind, external; simpl.
  destruct c, s, e1, p, e2; simpl; congruence.
Qed.

(* ================================================================= *)
(** ** The failure counter *)

Lemma cycles_cons cfg cycle env rest w up w1 :
  cycle env w = (Normal up, w1) ->
  cycles cfg cycle (env :: rest) w
  = (match fst (cycles cfg cycle rest
                  (after_events false [Sleep (scale (of_int 1000) (CHECK_INTERVAL cfg))] w1))
     with
     | Normal ups => Normal (up :: ups)
     | Throw err => Throw err
     end,
     snd (cycles cfg cycle rest
            (after_events false [Sleep (scale (of_int 1000) (CHECK_INTERVAL cfg))] w1))).
Proof.
  intro Hrun; simpl; unfold bind at 1; rewrite Hrun.
  unfold bind at 1, sleep, emit at 1; unfold bind at 1.
  fold (after_events false [Sleep (scale (of_int 1000) (CHECK_INTERVAL cfg))] w1).
  destruct (cycles cfg cycle rest _) as [[ups | err] w2]; reflexivity.
Qed.

Section Counter.

Variable cfg : Config.
Variable block : AttemptEnv -> M unit.
Hypothesis block_uniform : forall e, uniform (block e).
Hypothesis success_resets :
  forall e, failed (result_of (block e)) = false -> resets (block e) = true.

Let cycle (env : Z -> AttemptEnv) : M bool :=
  retry_cycle cfg (fun a => block (env a)) (fun a => random (env a)).
Let indices : list Z := attempt_indices (ATTEMPTS_PER_CYCLE cfg).

Lemma cycle_counter env w :
  (fst (cycle env w) = Normal true /\
   consecutiveFailures (snd (cycle env w)) = 0) \/
  (fst (cycle env w) = Normal false /\
   consecutiveFailures (snd (cycle env w))
   = (if existsb (fun a => resets (block (env a))) indices
      then 0 else consecutiveFailures w) + 1).
Proof.
  unfold cycle, retry_cycle; fold indices.
  destruct (first_success (fun a => failed (result_of (block (env a)))) indices)
    as [ Hall | (pre & a & post & -> & Hpre & Ha) ].
  - right.
    rewrite (loop_all_failed cfg _ _ (fun b => block_uniform (env b)))
      by assumption.
    rewrite cycle_failed_run; split; reflexivity.
  - left.
    rewrite (loop_first_success cfg _ _ (fun b => block_uniform (env b)))
      by assumption.
    split; [ reflexivity | simpl ].
    rewrite existsb_app; simpl.
    rewrite (success_resets _ Ha), orb_true_r; reflexivity.
Qed.

Lemma cycle_counts :
  counts_failed_cycles cfg cycle (fun e => resets (block e)).
Proof.
  intros env w.
  destruct (cycle_counter env w) as [ [Hup Hzero] | [Hdown Hcount] ];
    rewrite ?Hup, ?Hdown, ?Hzero, ?Hcount.
  - repeat split; try discriminate; lia.
  - repeat split; try discriminate.
    + intros _ Hquiet.
      replace (existsb _ indices) with false; [ reflexivity | ].
      symmetry; apply not_true_is_false; intro Hex.
      apply existsb_exists in Hex as (a & Hin & Ha).
      rewrite (Hquiet a Hin) in Ha; discriminate.
    + intro Hpos; destruct (existsb _ indices); lia.
Qed.

Lemma cycle_fails_without_reset env w :
  (forall a, In a indices -> resets (block (env a)) = false) ->
  fst (cycle env w) = Normal false.
Proof.
  intro Hquiet.
  unfold cycle, retry_cycle; fold indices.
  rewrite (loop_all_failed cfg _ _ (fun b => block_uniform (env b))).
  - reflexivity.
  - intros a Ha.
    destruct (failed (result_of (block (env a)))) eqn:Hfail; [ reflexivity | ].
    specialize (Hquiet a Ha).
    rewrite (success_resets _ Hfail) in Hquiet; discriminate.
Qed.

Lemma cycles_count :
  counts_in_a_row cfg cycle (fun e => resets (block e)).
Proof.
  intro envs; induction envs as [ | env rest IH ]; intro w.
  - split; [ intros _; split; simpl; [ reflexivity | lia ] | auto ].
  - destruct (loop_returns cfg _ (fun a => random (env a))
                (fun b => block_uniform (env b)) indices w)
      as (up & w1 & Hrun).
    change (cycle env w = (Normal up, w1)) in Hrun.
    rewrite (cycles_cons cfg cycle env rest w up w1 Hrun).
    destruct (cycle_counts env w) as (_ & Hinc & Hpos).
    rewrite Hrun in Hinc, Hpos; simpl in Hinc, Hpos.
    set (w2 := after_events false [Sleep (scale (of_int 1000) (CHECK_INTERVAL cfg))] w1).
    destruct (IH w2) as [Hrow Hpos']; simpl snd; split.
    + intro Hquiet.
      assert (Hhere : forall a, In a indices -> resets (block (env a)) = false)
        by (intros a Ha; apply (Hquiet env a); [ now left | assumption ]).
      pose proof (cycle_fails_without_reset env w Hhere) as Hdown.
      rewrite Hrun in Hdown; simpl in Hdown; injection Hdown as ->.
      destruct Hrow as [Hups Hsum];
        [ intros env' a Hin; apply Hquiet; now right | ].
      simpl fst; rewrite Hups, Hsum; split; [ reflexivity | ].
      subst w2; simpl consecutiveFailures at 1.
      rewrite (Hinc eq_refl Hhere); simpl List.length; lia.
    + intro H0; apply Hpos'; subst w2; simpl; auto.
Qed.

End Counter.

Lemma counts_failed_cycles_ext cfg cycle (f g : AttemptEnv -> bool) :
  (forall e, f e = g e) ->
  counts_failed_cycles cfg cycle f -> counts_failed_cycles cfg cycle g.
Proof.
  intros Hfg Hf env w; destruct (Hf env w) as (Hup & Hdown & Hpos).
  repeat split; auto.
  intros Hfalse Hquiet; apply Hdown; auto.
  intros a Ha; rewrite Hfg; auto.
Qed.

Lemma counts_in_a_row_ext cfg cycle (f g : AttemptEnv -> bool) :
  (forall e, f e = g e) ->
  counts_in_a_row cfg cycle f -> counts_in_a_row cfg cycle g.
Proof.
  intros Hfg Hf envs w; destruct (Hf envs w) as (Hrow & Hpos).
  split; auto.
  intros Hquiet; apply Hrow.
  intros env a Henv Ha; rewrite Hfg; auto.
Qed.

Lemma legacy_try_block_resets e :
  resets (Legacy.try_block e) = legacy_exchange_succeeds e.
Proof.
  destruct e as [[c s e1 e2] ws p r].
  unfold resets, legacy_exchange_succeeds, Legacy.try_block, try_catch, bind,
    external; simpl.
  destruct c, s, e1, p, e2; reflexivity.
Qed.

(** C3, as the program has it.  [consecutiveFailures] never becomes
    negative; a cycle that returns [true] leaves it at 0; a cycle that
    returns [false] and in which no attempt got through its RCON exchange
    leaves it exactly one higher; hence N such cycles in a row add N.  Both
    revisions of the driver behave so. *)
Theorem failure_counter_tracks_failed_cycles (cfg : Config) :
  counts_failed_cycles cfg (checkServerWithRetry cfg) (exchange_succeeds cfg) /\
  counts_in_a_row cfg (checkServerWithRetry cfg) (exchange_succeeds cfg) /\
  counts_failed_cycles cfg (Legacy.checkServerWithRetry cfg)
    legacy_exchange_succeeds /\
  counts_in_a_row cfg (Legacy.checkServerWithRetry cfg)
    legacy_exchange_succeeds.
Proof.
  pose (t := toLowerCase (RCON_TRANSPORT cfg)).
  split; [ | split; [ | split ] ].
  - apply (counts_failed_cycles_ext _ _ (fun e => resets (try_block cfg t e))).
    + intro e; apply try_block_resets.
    + apply (cycle_counts cfg (try_block cfg t)).
      * intro e; apply uniform_try_block.
      * intro e; apply try_block_success_resets.
  - apply (counts_in_a_row_ext _ _ (fun e => resets (try_block cfg t e))).
    + intro e; apply try_block_resets.
    + apply (cycles_count cfg (try_block cfg t)).
      * intro e; apply uniform_try_block.
      * intro e; apply try_block_success_resets.
  - apply (counts_failed_cycles_ext _ _ (fun e => resets (Legacy.try_block e))).
    + apply legacy_try_block_resets.
    + apply (cycle_counts cfg Legacy.try_block).
      * apply uniform_legacy_try_block.
      * apply legacy_success_resets.
  - apply (counts_in_a_row_ext _ _ (fun e => resets (Legacy.try_block e))).
    + apply legacy_try_block_resets.
    + apply (cycles_count cfg Legacy.try_block).
      * apply uniform_legacy_try_block.
      * apply legacy_success_resets.
Qed.

(** Scenarios B and C of the specification: two cycles of three attempts
    against a server that is down leave the counter at 2. *)
Lemma failure_counter_tracks_failed_cycles_witness :
  consecutiveFailures
    (snd (loop (settings "web" 3 2)
            [fun _ => server_down; fun _ => server_down] boot))
  = 0 + 2.
Proof.
  destruct (failure_counter_tracks_failed_cycles (settings "web" 3 2))
    as (_ & Hrow & _).
  destruct (Hrow [fun _ => server_down; fun _ => server_down] boot)
    as [Hsum _].
  apply Hsum.
  intros env a [ <- | [ <- | [] ] ] _; reflexivity.
Defined.

(** C3 as the specification words it fails: a cycle that fails only
    because the heartbeat could not be posted restarts the counter, so
    after two failed cycles in a row the counter is 1. *)
Lemma failure_counter_restarts_on_undelivered_heartbeat :
  ~ counter_equals_failures_in_a_row (settings "web" 3 5)
      [fun _ => server_down; fun _ => collector_down].
Proof.
  intro Hcount.
  specialize (Hcount eq_refl).
  vm_compute in Hcount; discriminate.
Qed.

(* ================================================================= *)
(** ** What a failed cycle leaves behind *)

Section FailedCycle.

Variable cfg : Config.
Variable block : AttemptEnv -> M unit.
Hypothesis block_uniform : forall e, uniform (block e).

Let cycle (env : Z -> AttemptEnv) : M bool :=
  retry_cycle cfg (fun a => block (env a)) (fun a => random (env a)).
Let indices : list Z := attempt_indices (ATTEMPTS_PER_CYCLE cfg).
Let events (env : Z -> AttemptEnv) : Z -> list event :=
  attempt_events cfg (fun a => block (env a)) (fun a => random (env a)).

Lemma failed_cycle_form env w :
  (forall a, In a indices -> failed (result_of (block (env a))) = true) ->
  cycle env w
  = (Normal false,
     let count :=
       (if existsb (fun a => resets (block (env a))) indices
        then 0 else consecutiveFailures w) + 1 in
     {| consecutiveFailures := count;
        trace := trace w ++ flat_map (events env) indices
                         ++ [classify cfg count] |}).
Proof.
  intro Hall; unfold cycle, retry_cycle; fold indices.
  rewrite (loop_all_failed cfg _ _ (fun b => block_uniform (env b)))
    by assumption.
  rewrite cycle_failed_run; simpl.
  now rewrite <- app_assoc.
Qed.

Lemma failed_cycle_inversion env w :
  fst (cycle env w) = Normal false ->
  forall a, In a indices -> failed (result_of (block (env a))) = true.
Proof.
  intro Hdown.
  destruct (first_success (fun a => failed (result_of (block (env a)))) indices)
    as [ Hall | (pre & a & post & Heq & Hpre & Ha) ]; [ exact Hall | ].
  unfold cycle, retry_cycle in Hdown; fold indices in Hdown.
  rewrite Heq in Hdown.
  rewrite (loop_first_success cfg _ _ (fun b => block_uniform (env b)))
    in Hdown by assumption.
  discriminate.
Qed.

Lemma succeeded_cycle_form env w pre a post :
  indices = pre ++ a :: post ->
  (forall b, In b pre -> failed (result_of (block (env b))) = true) ->
  failed (result_of (block (env a))) = false ->
  cycle env w
  = (Normal true,
     after_events (existsb (fun b => resets (block (env b))) (pre ++ [a]))
       (flat_map (events env) (pre ++ [a])) w).
Proof.
  intros Heq Hpre Ha; unfold cycle, retry_cycle; fold indices.
  rewrite Heq.
  now rewrite (loop_first_success cfg _ _ (fun b => block_uniform (env b))).
Qed.

(** After a failed cycle the last line printed is the classification of
    the counter as the cycle left it, and that counter is positive. *)
Lemma failed_cycle_classified env w :
  0 <= consecutiveFailures w ->
  fst (cycle env w) = Normal false ->
  0 < consecutiveFailures (snd (cycle env w)) /\
  last (trace (snd (cycle env w))) LogHeartbeat
  = classify cfg (consecutiveFailures (snd (cycle env w))).
Proof.
  intros Hpos Hdown.
  rewrite (failed_cycle_form env w (failed_cycle_inversion env w Hdown)).
  simpl; split.
  - destruct (existsb _ indices); lia.
  - now rewrite app_assoc, last_last.
Qed.

End FailedCycle.

Lemma classify_down cfg t n :
  CONSECUTIVE_FAILURES_THRESHOLD cfg = Int t ->
  classify cfg n = LogDown n <-> n >= t.
Proof.
  intro Ht; unfold classify; rewrite Ht; simpl.
  destruct (Z.geb_spec n t) as [ Hge | Hlt ]; split; intro Hn;
    try lia; try reflexivity; discriminate.
Qed.

Lemma classify_warn cfg t n :
  CONSECUTIVE_FAILURES_THRESHOLD cfg = Int t ->
  classify cfg n = LogWarn n <-> n < t.
Proof.
  intro Ht; unfold classify; rewrite Ht; simpl.
  destruct (Z.geb_spec n t) as [ Hge | Hlt ]; split; intro Hn;
    try lia; try reflexivity; discriminate.
Qed.

(** C4.  With threshold [t], the line a failed cycle prints about the
    counter [n] it leaves is [DOWN] if and only if [n >= t] and [WARN] if
    and only if [0 < n < t]; the counter is positive then, so the value 0
    (healthy) is never classified.  Both revisions of the driver behave
    so. *)
Theorem classification_by_threshold (cfg : Config) (t : Z)
  (env : Z -> AttemptEnv) (w : World) :
  CONSECUTIVE_FAILURES_THRESHOLD cfg = Int t ->
  0 <= consecutiveFailures w ->
  (forall n, (classify cfg n = LogDown n <-> n >= t) /\
             (classify cfg n = LogWarn n <-> n < t)) /\
  (fst (checkServerWithRetry cfg env w) = Normal false ->
   let n := consecutiveFailures (snd (checkServerWithRetry cfg env w)) in
   let printed := last (trace (snd (checkServerWithRetry cfg env w))) LogHeartbeat in
   0 < n /\
   (printed = LogDown n \/ printed = LogWarn n) /\
   (printed = LogDown n <-> n >= t) /\
   (printed = LogWarn n <-> 0 < n < t)) /\
  (fst (Legacy.checkServerWithRetry cfg env w) = Normal false ->
   let n := consecutiveFailures (snd (Legacy.checkServerWithRetry cfg env w)) in
   let printed :=
     last (trace (snd (Legacy.checkServerWithRetry cfg env w))) LogHeartbeat in
   0 < n /\
   (printed = LogDown n \/ printed = LogWarn n) /\
   (printed = LogDown n <-> n >= t) /\
   (printed = LogWarn n <-> 0 < n < t)).
Proof.
  intros Ht Hpos.
  assert (Hpure : forall n, (classify cfg n = LogDown n <-> n >= t) /\
                            (classify cfg n = LogWarn n <-> n < t))
    by (intro n; split; [ now apply classify_down | now apply classify_warn ]).
  assert (Hcases : forall n, classify cfg n = LogDown n \/
                             classify cfg n = LogWarn n)
    by (intro n; unfold classify; destruct (ge _ _); auto).
  split; [ exact Hpure | split ].
  - unfold checkServerWithRetry; cbv zeta; intros Hdown.
    destruct (failed_cycle_classified cfg
                (try_block cfg (toLowerCase (RCON_TRANSPORT cfg)))
                (fun e => uniform_try_block _ _ e) env w Hpos Hdown)
      as [Hn Hlast].
    rewrite Hlast.
    set (n := consecutiveFailures (snd _)) in *.
    destruct (Hpure n) as [Hd Hw].
    split; [ exact Hn | ].
    split; [ apply Hcases | split; [ exact Hd | ] ].
    rewrite Hw; lia.
  - unfold Legacy.checkServerWithRetry; cbv zeta; intros Hdown.
    destruct (failed_cycle_classified cfg Legacy.try_block
                uniform_legacy_try_block env w Hpos Hdown)
      as [Hn Hlast].
    rewrite Hlast.
    set (n := consecutiveFailures (snd _)) in *.
    destruct (Hpure n) as [Hd Hw].
    split; [ exact Hn | ].
    split; [ apply Hcases | split; [ exact Hd | ] ].
    rewrite Hw; lia.
Qed.

(** Scenario B of the specification: three failed attempts, threshold 2,
    counter 0 before: the cycle prints a warning. *)
Lemma classification_by_threshold_witness :
  last (trace (snd (checkServerWithRetry (settings "web" 3 2)
                      (fun _ => server_down) boot))) LogHeartbeat
  = LogWarn 1.
Proof.
  destruct (classification_by_threshold (settings "web" 3 2) 2
              (fun _ => server_down) boot eq_refl ltac:(simpl; lia))
    as (_ & Hweb & _).
  destruct (Hweb eq_refl) as (_ & _ & _ & Hwarn).
  apply Hwarn; vm_compute; split; reflexivity.
Defined.

(* ================================================================= *)
(** ** The WebRCON session *)

Section Session.

Import WebRcon.

Variable cfg : Config.
Variable env : Env.

Local Abbreviation deliver := (WebRcon.deliver cfg env).
Local Abbreviation run := (WebRcon.run cfg env).

Lemma deliver_dead s w :
  live s = false ->
  deliver s w
  = match w with
    | OnError err => say (UncaughtError err) s
    | _ => s
    end.
Proof. intro Hdead; unfold WebRcon.deliver; now rewrite Hdead. Qed.

(** A settled session stays as it is, whatever arrives; all that can be
    added to what it has done is uncaught socket errors. *)
Lemma dead_frozen ws s :
  live s = false ->
  live (fold_left deliver ws s) = false /\
  outcome (fold_left deliver ws s) = outcome s /\
  authSuccess (fold_left deliver ws s) = authSuccess s /\
  commandId (fold_left deliver ws s) = commandId s /\
  exists extra,
    output (fold_left deliver ws s) = output s ++ extra /\
    forallb is_uncaught extra = true.
Proof.
  revert s; induction ws as [ | w ws IH ]; intros s Hdead; simpl.
  - repeat split; auto; exists []; now rewrite app_nil_r.
  - rewrite deliver_dead by assumption.
    destruct w as [ | data | | err | ]; try (now apply IH).
    destruct (IH (say (UncaughtError err) s) Hdead)
      as (Hl & Ho & Ha & Hc & extra & He & Hu).
    repeat split; auto.
    exists (UncaughtError err :: extra); split; [ | exact Hu ].
    rewrite He; simpl; now rewrite <- app_assoc.
Qed.

Lemma dead_output ws s :
  live s = false ->
  fold_left deliver ws s
  = {| authSuccess := authSuccess s; commandId := commandId s;
       live := live s; outcome := outcome s;
       output := output s ++ uncaught_errors ws |}.
Proof.
  revert s; induction ws as [ | w ws IH ]; intros s Hdead; simpl.
  - destruct s; simpl; now rewrite app_nil_r.
  - rewrite deliver_dead by assumption.
    destruct w as [ | data | | err | ]; try (now apply IH).
    rewrite IH by assumption; simpl; now rewrite <- app_assoc.
Qed.

(** The same, seen from the caller: the promise is settled as it was and
    the output is only extended. *)
Lemma finish_dead ws s :
  live s = false -> outcome s <> Pending ->
  awaited (finish env (fold_left deliver ws s)) = awaited s /\
  exists extra,
    output (finish env (fold_left deliver ws s)) = output s ++ extra /\
    forallb is_uncaught extra = true.
Proof.
  intros Hdead Hsettled.
  destruct (dead_frozen ws s Hdead) as (_ & Hout & _ & _ & Hextra).
  unfold WebRcon.finish, WebRcon.awaited.
  destruct (outcome s) eqn:Hs; [ congruence | | ];
    rewrite Hout; cbn iota; rewrite Hout; auto.
Qed.

Lemma run_app pre rest : run (pre ++ rest) = fold_left deliver rest (run pre).
Proof. unfold WebRcon.run; apply fold_left_app. Qed.

Lemma checkServerWebRCON_run w :
  construct env = Normal tt ->
  checkServerWebRCON cfg env w
  = (awaited (finish env (run (arrivals env))),
     after_events false
       (WsConstruct :: output (finish env (run (arrivals env)))) w).
Proof.
  intro Hws; unfold checkServerWebRCON; rewrite Hws.
  unfold bind, emit, emit_all, after_events; simpl.
  now rewrite <- app_assoc.
Qed.

(** *** Before the auth signal *)

Lemma not_signal_ignored msg s :
  authSuccess s = false -> msg <> JNull -> is_auth_signal msg = false ->
  on_message cfg env (Json msg) s = s.
Proof.
  unfold is_auth_signal, on_message, handle; simpl; intros Hauth Hmsg Hsig.
  rewrite Hauth; simpl.
  destruct (get msg "Identifier") as [ ident | err ] eqn:Hid; simpl.
  - now rewrite Hsig.
  - destruct msg; try discriminate; congruence.
Qed.

Lemma before_signal_step s w :
  authSuccess s = false -> commandId s = None ->
  (forall v, outcome s <> Fulfilled v) ->
  before_signal w = true ->
  authSuccess (deliver s w) = false /\
  commandId (deliver s w) = None /\
  (forall v, outcome (deliver s w) <> Fulfilled v).
Proof.
  intros Hauth Hid Hnot Hw.
  unfold WebRcon.deliver; destruct (live s); [ | destruct w; simpl; auto ].
  destruct w as [ | [ why | msg ] | | err | ]; simpl in *.
  - auto.
  - unfold on_message, reject, settle; simpl.
    destruct (outcome s) eqn:Ho; simpl; rewrite ?Ho; repeat split; auto;
      discriminate.
  - unfold on_message, handle; simpl; rewrite Hauth; simpl.
    apply negb_true_iff in Hw; unfold is_auth_signal in Hw.
    destruct (get msg "Identifier") as [ ident | err ]; simpl.
    + rewrite Hw; auto.
    + unfold reject, settle; simpl.
      destruct (outcome s) eqn:Ho; simpl; rewrite ?Ho; repeat split; auto;
        discriminate.
  - unfold on_close, reject, settle; rewrite Hauth; simpl.
    destruct (outcome s) eqn:Ho; simpl; rewrite ?Ho; repeat split; auto;
      discriminate.
  - unfold on_error, reject, settle; simpl.
    destruct (outcome s) eqn:Ho; simpl; rewrite ?Ho; repeat split; auto;
      discriminate.
  - unfold on_timeout, reject, settle; simpl.
    destruct (outcome s) eqn:Ho; simpl; rewrite ?Ho; repeat split; auto;
      discriminate.
Qed.

Lemma before_signal_fold ws s :
  authSuccess s = false -> commandId s = None ->
  (forall v, outcome s <> Fulfilled v) ->
  forallb before_signal ws = true ->
  authSuccess (fold_left deliver ws s) = false /\
  commandId (fold_left deliver ws s) = None /\
  (forall v, outcome (fold_left deliver ws s) <> Fulfilled v).
Proof.
  revert s; induction ws as [ | w ws IH ]; intros s Hauth Hid Hnot Hws;
    simpl in *; [ auto | ].
  apply andb_true_iff in Hws as [Hw Hws].
  destruct (before_signal_step s w Hauth Hid Hnot Hw) as (H1 & H2 & H3).
  apply IH; auto.
Qed.

(** The timer and the listeners are installed exactly as long as the
    promise is pending. *)
Lemma pending_step s w :
  (live s = true <-> outcome s = Pending) ->
  (live (deliver s w) = true <-> outcome (deliver s w) = Pending).
Proof.
  intro Hinv.
  unfold WebRcon.deliver; destruct (live s) eqn:Hlive;
    [ | destruct w; simpl; now rewrite Hlive ].
  assert (Hp : outcome s = Pending) by now apply Hinv.
  destruct w as [ | [ why | msg ] | | err | ]; simpl;
    unfold on_open, on_message, on_close, on_error, on_timeout, handle,
      reject, resolve, settle, cleanup, say; simpl; rewrite ?Hp, ?Hlive;
      simpl; try tauto; try (split; discriminate).
  - destruct (authSuccess s); simpl;
      destruct (get msg "Identifier") as [ ident | err ]; simpl;
      rewrite ?Hp; simpl; try (split; discriminate);
      try (destruct (strict_eq ident _); simpl; rewrite ?Hp, ?Hlive; simpl;
           try tauto;
           destruct (get msg "Message") as [ field | err ]; simpl;
           rewrite ?Hp; simpl; try (split; discriminate);
           destruct (responsePreview field); simpl; rewrite ?Hp; simpl;
           split; discriminate).
  - destruct (authSuccess s); simpl; rewrite ?Hp; simpl; try tauto;
      split; discriminate.
Qed.

Lemma pending_fold ws s :
  (live s = true <-> outcome s = Pending) ->
  (live (fold_left deliver ws s) = true
   <-> outcome (fold_left deliver ws s) = Pending).
Proof.
  revert s; induction ws as [ | w ws IH ]; intros s Hinv; simpl; auto.
  apply IH, pending_step, Hinv.
Qed.

Lemma pending_run ws : outcome (run ws) = Pending -> live (run ws) = true.
Proof.
  apply (pending_fold ws start); simpl; tauto.
Qed.

End Session.


(** C7.  As long as no frame with [Identifier] -1 has arrived, the session
    is not authenticated and has no command id, the promise has not been
    resolved, and a frame that is not the signal leaves the session as it
    was, whatever its [Identifier]; a [close] event that reaches the session
    while the attempt is still pending rejects it with the
    closed-before-auth error, and that is how [checkServerWebRCON] ends. *)
Theorem nothing_matches_before_the_auth_signal (cfg : Config)
  (env : WebRcon.Env) (pre : list WebRcon.wakeup) :
  forallb before_signal pre = true ->
  let s := WebRcon.run cfg env pre in
  WebRcon.authSuccess s = false /\
  WebRcon.commandId s = None /\
  (forall v, WebRcon.outcome s <> WebRcon.Fulfilled v) /\
  (forall msg, msg <> JNull -> is_auth_signal msg = false ->
               WebRcon.on_message cfg env (WebRcon.Json msg) s = s) /\
  (WebRcon.outcome s = WebRcon.Pending ->
   forall rest w,
     WebRcon.construct env = Normal tt ->
     WebRcon.arrivals env = pre ++ WebRcon.OnClose :: rest ->
     fst (WebRcon.checkServerWebRCON cfg env w) = Throw WebRconClosedBeforeAuth).
Proof.
  intros Hpre s.
  destruct (before_signal_fold cfg env pre WebRcon.start) as (Hauth & Hid & Hnot);
    try reflexivity; try assumption; [ discriminate | ].
  fold (WebRcon.run cfg env pre) in Hauth, Hid, Hnot; fold s in Hauth, Hid, Hnot.
  repeat split; auto.
  - intros msg Hmsg Hsig; now apply not_signal_ignored.
  - intros Hpending rest w Hws Harrivals.
    rewrite checkServerWebRCON_run by assumption; simpl.
    rewrite Harrivals, run_app; simpl; fold s.
    assert (Hclosed :
              WebRcon.outcome (WebRcon.deliver cfg env s WebRcon.OnClose)
              = WebRcon.Rejected WebRconClosedBeforeAuth /\
              WebRcon.live (WebRcon.deliver cfg env s WebRcon.OnClose) = false).
    { assert (Hlive : WebRcon.live s = true)
        by exact (pending_run cfg env pre Hpending).
      unfold WebRcon.deliver; rewrite Hlive.
      unfold WebRcon.on_close, WebRcon.reject, WebRcon.settle.
      rewrite Hauth; simpl; rewrite Hpending; simpl; auto. }
    destruct Hclosed as [Hout Hdead].
    destruct (finish_dead cfg env rest _ Hdead) as [Hsame _];
      [ rewrite Hout; discriminate | ].
    rewrite Hsame; unfold WebRcon.awaited; now rewrite Hout.
Qed.

(** The socket opens, a frame that looks like an answer arrives too early,
    and the server closes the connection: the attempt is rejected. *)
Lemma nothing_matches_before_the_auth_signal_witness :
  fst (WebRcon.checkServerWebRCON (settings "web" 3 2)
         (socket [WebRcon.OnOpen;
                  WebRcon.OnMessage (WebRcon.Json (answer 1700000000000 "early"));
                  WebRcon.OnClose])
         boot)
  = Throw WebRconClosedBeforeAuth.
Proof.
  destruct (nothing_matches_before_the_auth_signal (settings "web" 3 2)
              (socket [WebRcon.OnOpen;
                       WebRcon.OnMessage
                         (WebRcon.Json (answer 1700000000000 "early"));
                       WebRcon.OnClose])
              [WebRcon.OnOpen;
               WebRcon.OnMessage (WebRcon.Json (answer 1700000000000 "early"))]
              eq_refl)
    as (_ & _ & _ & _ & Hclose).
  apply (Hclose eq_refl []); reflexivity.
Defined.

(* ================================================================= *)
(** ** From the auth signal to the answer *)

Section Answer.

Variable cfg : Config.
Variable env : WebRcon.Env.

Local Abbreviation deliver := (WebRcon.deliver cfg env).

Lemma quiet_before_fold ws s :
  awaiting_signal s -> forallb quiet_before ws = true ->
  awaiting_signal (fold_left deliver ws s).
Proof.
  revert s; induction ws as [ | w ws IH ]; intros s Hs Hws; simpl in *;
    [ assumption | ].
  apply andb_true_iff in Hws as [Hw Hws].
  apply IH; [ | assumption ].
  destruct Hs as (Hauth & Hlive & Hp).
  unfold WebRcon.deliver; rewrite Hlive.
  destruct w as [ | [ why | msg ] | | err | ]; try discriminate.
  - repeat split; assumption.
  - unfold WebRcon.on_message, WebRcon.handle; simpl; rewrite Hauth; simpl.
    simpl in Hw.
    destruct (get msg "Identifier") as [ ident | err ]; [ | discriminate ].
    apply negb_true_iff in Hw; simpl; rewrite Hw.
    repeat split; assumption.
Qed.

Lemma signal_step s msg :
  awaiting_signal s -> is_auth_signal msg = true ->
  awaiting_answer cfg env (deliver s (WebRcon.OnMessage (WebRcon.Json msg))).
Proof.
  intros (Hauth & Hlive & Hp) Hsig.
  unfold WebRcon.deliver; rewrite Hlive.
  unfold WebRcon.on_message, WebRcon.handle; simpl; rewrite Hauth; simpl.
  unfold is_auth_signal in Hsig.
  destruct (get msg "Identifier") as [ ident | err ]; [ | discriminate ].
  simpl; rewrite Hsig.
  repeat split; simpl; auto.
  apply in_or_app; right; now left.
Qed.

Lemma quiet_after_fold ws s :
  awaiting_answer cfg env s -> forallb (quiet_after (WebRcon.now env)) ws = true ->
  awaiting_answer cfg env (fold_left deliver ws s).
Proof.
  revert s; induction ws as [ | w ws IH ]; intros s Hs Hws; simpl in *;
    [ assumption | ].
  apply andb_true_iff in Hws as [Hw Hws].
  apply IH; [ | assumption ].
  destruct Hs as (Hauth & Hid & Hlive & Hp & Hsent).
  unfold WebRcon.deliver; rewrite Hlive.
  destruct w as [ | [ why | msg ] | | err | ]; try discriminate.
  - repeat split; simpl; auto.
    apply in_or_app; now left.
  - unfold WebRcon.on_message, WebRcon.handle; simpl; rewrite Hauth, Hid; simpl.
    simpl in Hw.
    destruct (get msg "Identifier") as [ ident | err ]; [ | discriminate ].
    apply negb_true_iff in Hw; simpl; rewrite Hw.
    repeat split; assumption.
  - unfold WebRcon.on_close; rewrite Hauth; simpl.
    repeat split; assumption.
Qed.

Lemma answer_step s msg field :
  awaiting_answer cfg env s ->
  get msg "Identifier" = Normal (Some (JNum (WebRcon.now env))) ->
  get msg "Message" = Normal field ->
  let s' := deliver s (WebRcon.OnMessage (WebRcon.Json msg)) in
  WebRcon.live s' = false /\
  In (WsSend (WebRcon.commandMessage cfg (WebRcon.now env))) (WebRcon.output s') /\
  match WebRcon.responsePreview field with
  | Normal preview =>
      WebRcon.outcome s' = WebRcon.Fulfilled (JBool true) /\
      In (LogUp preview) (WebRcon.output s')
  | Throw err =>
      WebRcon.outcome s' = WebRcon.Rejected (WebRconParseError (message err))
  end.
Proof.
  intros (Hauth & Hid & Hlive & Hp & Hsent) Hident Hfield.
  unfold WebRcon.deliver; rewrite Hlive.
  unfold WebRcon.on_message, WebRcon.handle; simpl.
  rewrite Hauth, Hid, Hident; simpl.
  rewrite Z.eqb_refl, Hfield; simpl.
  destruct (WebRcon.responsePreview field) as [ preview | err ]; simpl;
    unfold WebRcon.resolve, WebRcon.reject, WebRcon.settle; simpl;
    rewrite Hp; simpl; repeat split.
  - rewrite !in_app_iff; left; left; assumption.
  - rewrite !in_app_iff; left; right; now left.
  - rewrite !in_app_iff; left; assumption.
Qed.

End Answer.

(** C8, as the program has it.  Once a frame with [Identifier] -1 has
    arrived, the command is sent with [Date.now()] as its id, and the first
    frame after that whose [Identifier] is that id settles the attempt.
    When the [Message] of that frame is a string, or is missing or falsy,
    [checkServerWebRCON] resolves with [true], and the text is only
    printed, cut to its first hundred characters (['empty'] when there is
    none); any other [Message] rejects the attempt with a parse error. *)
Theorem answer_to_the_command_resolves_with_true (cfg : Config)
  (env : WebRcon.Env) (w : World)
  (pre mid rest : list WebRcon.wakeup) (signal response : json)
  (field : option json) :
  WebRcon.construct env = Normal tt ->
  WebRcon.arrivals env
  = pre ++ WebRcon.OnMessage (WebRcon.Json signal)
        :: mid ++ WebRcon.OnMessage (WebRcon.Json response) :: rest ->
  forallb quiet_before pre = true ->
  is_auth_signal signal = true ->
  forallb (quiet_after (WebRcon.now env)) mid = true ->
  get response "Identifier" = Normal (Some (JNum (WebRcon.now env))) ->
  get response "Message" = Normal field ->
  In (WsSend (WebRcon.commandMessage cfg (WebRcon.now env)))
     (trace (snd (WebRcon.checkServerWebRCON cfg env w))) /\
  match WebRcon.responsePreview field with
  | Normal preview =>
      fst (WebRcon.checkServerWebRCON cfg env w) = Normal (JBool true) /\
      In (LogUp preview) (trace (snd (WebRcon.checkServerWebRCON cfg env w))) /\
      (forall text, field = Some (JStr text) -> text <> EmptyString ->
                    preview = substring 0 100 text)
  | Throw err =>
      fst (WebRcon.checkServerWebRCON cfg env w)
      = Throw (WebRconParseError (message err))
  end.
Proof.
  intros Hws Harrivals Hpre Hsignal Hmid Hident Hfield.
  rewrite checkServerWebRCON_run by assumption.
  rewrite Harrivals, run_app; simpl fold_left.
  rewrite fold_left_app; simpl fold_left.
  assert (H0 : awaiting_signal WebRcon.start) by (repeat split).
  pose proof (quiet_before_fold cfg env pre _ H0 Hpre) as H1.
  fold (WebRcon.run cfg env pre) in H1.
  pose proof (signal_step cfg env _ signal H1 Hsignal) as H2.
  pose proof (quiet_after_fold cfg env mid _ H2 Hmid) as H3.
  destruct (answer_step cfg env _ response field H3 Hident Hfield)
    as (Hdead & Hsent & Hsettled).
  match goal with
  | |- context [fold_left _ rest ?s] =>
      assert (Hnot : WebRcon.outcome s <> WebRcon.Pending)
        by (destruct (WebRcon.responsePreview field);
            [ destruct Hsettled as [Hout _]; rewrite Hout | rewrite Hsettled ];
            discriminate);
      destruct (finish_dead cfg env rest s Hdead Hnot)
        as (Hsame & extra & Hgrown & _)
  end.
  rewrite Hsame; simpl snd; simpl fst.
  unfold after_events; simpl trace; rewrite Hgrown.
  unfold WebRcon.awaited.
  destruct (WebRcon.responsePreview field) as [ preview | err ] eqn:Hpreview.
  - destruct Hsettled as [Hout Hlogged].
    rewrite Hout.
    repeat split.
    + apply in_or_app; right; right; apply in_or_app; now left.
    + apply in_or_app; right; right; apply in_or_app; now left.
    + intros text -> Hne; simpl in Hpreview.
      destruct text; [ congruence | ]; congruence.
  - rewrite Hsettled.
    split; [ | reflexivity ].
    apply in_or_app; right; right; apply in_or_app; now left.
Qed.

(** Scenario D of the specification. *)
Lemma answer_to_the_command_resolves_with_true_witness :
  fst (WebRcon.checkServerWebRCON (settings "web" 3 2) web_up boot)
  = Normal (JBool true) /\
  In (LogUp "hostname: X")
     (trace (snd (WebRcon.checkServerWebRCON (settings "web" 3 2) web_up boot))).
Proof.
  destruct (answer_to_the_command_resolves_with_true (settings "web" 3 2)
              web_up boot [WebRcon.OnOpen] [] [] auth_signal
              (answer 1700000000000 "hostname: X")
              (Some (JStr "hostname: X"))
              eq_refl eq_refl eq_refl eq_refl eq_refl eq_refl eq_refl)
    as (_ & Htrue & Hlogged & _).
  split; assumption.
Defined.

(** C8 as the specification words it fails: in Scenario D the function
    resolves with [true], not with the text of the answer. *)
Lemma answer_text_is_not_returned :
  ~ returns_message_text (settings "web" 3 2) web_up "hostname: X".
Proof.
  unfold returns_message_text; vm_compute; discriminate.
Qed.

(* ================================================================= *)
(** ** What an exchange can append to the trace *)

Lemma sleeps_app es es' : sleeps (es ++ es') = sleeps es ++ sleeps es'.
Proof. unfold sleeps; apply flat_map_app. Qed.

Lemma posts_app es es' : posts (es ++ es') = (posts es + posts es')%nat.
Proof. unfold posts; now rewrite filter_app, length_app. Qed.

Lemma protocol_no_sleep es :
  forallb protocol_event es = true -> sleeps es = [].
Proof.
  induction es as [ | e es IH ]; simpl; [ reflexivity | ].
  intro H; apply andb_true_iff in H as [He Hes].
  destruct e; try discriminate; simpl; auto.
Qed.

Lemma protocol_no_post es :
  forallb protocol_event es = true -> posts es = 0%nat.
Proof.
  induction es as [ | e es IH ]; simpl; [ reflexivity | ].
  intro H; apply andb_true_iff in H as [He Hes].
  destruct e; try discriminate; unfold posts in *; simpl; auto.
Qed.

Section SessionOutput.

Variable cfg : Config.
Variable env : WebRcon.Env.

Let tidy (s : WebRcon.Session) : Prop :=
  forallb protocol_event (WebRcon.output s) = true.

Lemma tidy_say e s : protocol_event e = true -> tidy s -> tidy (WebRcon.say e s).
Proof.
  unfold tidy; simpl; intros He Hs.
  now rewrite forallb_app, Hs; simpl; rewrite He.
Qed.

Lemma tidy_cleanup b st s : tidy s -> tidy (WebRcon.cleanup b st s).
Proof.
  unfold tidy; simpl; intro Hs.
  rewrite forallb_app, Hs; destruct b, st; reflexivity.
Qed.

Lemma tidy_settle p s : tidy s -> tidy (WebRcon.settle p s).
Proof.
  unfold tidy, WebRcon.settle; destruct (WebRcon.outcome s); auto.
Qed.

Lemma tidy_handle msg s s' :
  tidy s -> WebRcon.handle cfg env msg s = Normal s' -> tidy s'.
Proof.
  intros Hs; unfold WebRcon.handle, and_then.
  repeat match goal with
         | |- context [ match ?x with _ => _ end ] => destruct x; simpl
         end;
    intro H; try discriminate; injection H as <-;
    first [ exact Hs
          | apply tidy_say; [ reflexivity | exact Hs ]
          | apply tidy_settle, tidy_cleanup, tidy_say;
            [ reflexivity | exact Hs ] ].
Qed.

Lemma tidy_deliver s w : tidy s -> tidy (WebRcon.deliver cfg env s w).
Proof.
  intro Hs; unfold WebRcon.deliver.
  destruct (WebRcon.live s);
    [ | destruct w; try exact Hs; apply tidy_say; [ reflexivity | exact Hs ] ].
  destruct w as [ | data | | err | ].
  - apply tidy_say; [ reflexivity | exact Hs ].
  - unfold WebRcon.on_message.
    destruct (and_then (WebRcon.parse data) _) as [ s' | parseErr ] eqn:Hrun.
    + destruct data as [ why | msg ]; [ discriminate | ].
      simpl in Hrun; eapply tidy_handle; eauto.
    + now apply tidy_settle, tidy_cleanup.
  - unfold WebRcon.on_close.
    destruct (negb (WebRcon.authSuccess s)); [ | exact Hs ].
    now apply tidy_settle, tidy_cleanup.
  - now apply tidy_settle, tidy_cleanup.
  - now apply tidy_settle, tidy_cleanup.
Qed.

Lemma tidy_fold ws s : tidy s -> tidy (fold_left (WebRcon.deliver cfg env) ws s).
Proof.
  revert s; induction ws as [ | w ws IH ]; intros s Hs; simpl; auto.
  apply IH, tidy_deliver, Hs.
Qed.

Lemma web_events_protocol :
  forallb protocol_event (events_of (WebRcon.checkServerWebRCON cfg env)) = true.
Proof.
  unfold events_of, WebRcon.checkServerWebRCON, bind, emit, emit_all; simpl.
  destruct (WebRcon.construct env); simpl.
  - unfold WebRcon.finish.
    set (s := WebRcon.run cfg env (WebRcon.arrivals env)).
    assert (Hs : tidy s) by (apply tidy_fold; reflexivity).
    destruct (WebRcon.outcome s); try exact Hs.
    now apply tidy_settle, tidy_cleanup.
  - destruct (WebRcon.state_at_cleanup env); reflexivity.
Qed.

End SessionOutput.

Lemma classic_events_protocol env :
  forallb protocol_event (events_of (Classic.checkServerClassicRCON env)) = true.
Proof.
  destruct env as [c s e1 e2].
  unfold events_of, Classic.checkServerClassicRCON, try_catch, bind, external,
    emit; simpl.
  destruct c, s, e1, e2; reflexivity.
Qed.

Lemma bind_passive_events {A B} (m : M A) (k : A -> M B) :
  passive m -> (forall a, passive (k a)) ->
  events_of (bind m k)
  = events_of m ++ match result_of m with
                   | Normal a => events_of (k a)
                   | Throw _ => []
                   end.
Proof.
  intros Hm Hk; unfold events_of at 1, bind.
  rewrite (passive_run _ Hm).
  destruct (result_of m) as [ a | err ]; simpl.
  - now rewrite (passive_run _ (Hk a)).
  - now rewrite app_nil_r.
Qed.

Lemma exchange_events_protocol cfg t e :
  forallb protocol_event (events_of (exchange cfg t e)) = true.
Proof.
  unfold exchange.
  destruct (String.eqb t "classic"); [ | destruct (String.eqb t "web") ].
  - rewrite bind_passive_events; auto with passive.
    rewrite forallb_app, classic_events_protocol.
    destruct (result_of _); reflexivity.
  - rewrite bind_passive_events; auto with passive.
    rewrite forallb_app, web_events_protocol.
    destruct (result_of _); reflexivity.
  - reflexivity.
Qed.

Lemma try_block_no_sleep cfg t e : sleeps (events_of (try_block cfg t e)) = [].
Proof.
  rewrite try_block_events_of, sleeps_app.
  rewrite (protocol_no_sleep _ (exchange_events_protocol cfg t e)).
  destruct (result_of _); [ destruct (post e) | ]; reflexivity.
Qed.

Lemma try_block_one_post cfg t e :
  (posts (events_of (try_block cfg t e)) <= 1)%nat.
Proof.
  rewrite try_block_events_of, posts_app.
  rewrite (protocol_no_post _ (exchange_events_protocol cfg t e)).
  destruct (result_of _); [ destruct (post e) | ]; simpl; auto.
Qed.

Lemma legacy_no_sleep e : sleeps (events_of (Legacy.try_block e)) = [].
Proof.
  destruct e as [[c s e1 e2] ws p r].
  unfold events_of, Legacy.try_block, try_catch, bind, external, emit,
    write_failures; simpl.
  destruct c, s, e1, p, e2; reflexivity.
Qed.

(* ================================================================= *)
(** ** An unknown transport *)

Lemma existsb_never {A} (f : A -> bool) (l : list A) :
  (forall a, In a l -> f a = false) -> existsb f l = false.
Proof.
  intro Hall; apply not_true_is_false; intro Hex.
  apply existsb_exists in Hex as (a & Hin & Ha).
  rewrite (Hall a Hin) in Ha; discriminate.
Qed.

Lemma flat_map_same {A B} (f g : A -> list B) (l : list A) :
  (forall a, In a l -> f a = g a) -> flat_map f l = flat_map g l.
Proof.
  induction l as [ | x l IH ]; intro Hfg; simpl; [ reflexivity | ].
  rewrite (Hfg x) by now left.
  rewrite IH; [ reflexivity | ].
  intros a Ha; apply Hfg; now right.
Qed.

Lemma exchange_unknown cfg t e :
  t <> "classic"%string -> t <> "web"%string ->
  exchange cfg t e = throw (UnknownTransport (RCON_TRANSPORT cfg)).
Proof.
  intros Hc Hw; unfold exchange.
  apply String.eqb_neq in Hc, Hw.
  now rewrite Hc, Hw.
Qed.

(** C1, as the program has it.  A transport whose lower-cased name is
    neither ['classic'] nor ['web'] starts no protocol client and posts no
    heartbeat, but it is not detected at startup: the error is thrown in
    every attempt of every cycle, logged as the failure of that attempt and
    followed by the retry delay like any other error, and the cycle ends
    as a failed cycle, with the counter one higher. *)
Theorem unknown_transport_fails_every_attempt (cfg : Config)
  (env : Z -> AttemptEnv) (w : World) :
  toLowerCase (RCON_TRANSPORT cfg) <> "classic"%string ->
  toLowerCase (RCON_TRANSPORT cfg) <> "web"%string ->
  checkServerWithRetry cfg env w
  = (Normal false,
     {| consecutiveFailures := consecutiveFailures w + 1;
        trace :=
          trace w
          ++ flat_map (fun a =>
                         LogAttemptFailed a (UnknownTransport (RCON_TRANSPORT cfg))
                         :: jitter cfg a (random (env a)))
               (attempt_indices (ATTEMPTS_PER_CYCLE cfg))
          ++ [classify cfg (consecutiveFailures w + 1)] |}).
Proof.
  intros Hc Hw.
  set (t := toLowerCase (RCON_TRANSPORT cfg)) in *.
  assert (Hres : forall e, result_of (try_block cfg t e)
                           = Throw (UnknownTransport (RCON_TRANSPORT cfg)))
    by (intro e; rewrite try_block_result_of, exchange_unknown by assumption;
        reflexivity).
  assert (Hreset : forall e, resets (try_block cfg t e) = false)
    by (intro e; rewrite try_block_resets, exchange_unknown by assumption;
        reflexivity).
  assert (Hev : forall e, events_of (try_block cfg t e) = [])
    by (intro e; rewrite try_block_events_of, exchange_unknown by assumption;
        reflexivity).
  unfold checkServerWithRetry; fold t; cbv zeta.
  rewrite (failed_cycle_form cfg (try_block cfg t)
             (fun e => uniform_try_block cfg t e) env w)
    by (intros a _; now rewrite Hres).
  cbv zeta.
  rewrite existsb_never by (intros a _; apply Hreset).
  f_equal; f_equal; f_equal; f_equal.
  apply flat_map_same; intros a _.
  unfold attempt_events; now rewrite Hev, Hres.
Qed.

(** Three attempts with [RCON_TRANSPORT=udp]: the cycle fails and the
    counter goes from 0 to 1. *)
Lemma unknown_transport_fails_every_attempt_witness :
  fst (checkServerWithRetry (settings "udp" 3 2) (fun _ => server_up) boot)
  = Normal false /\
  consecutiveFailures
    (snd (checkServerWithRetry (settings "udp" 3 2) (fun _ => server_up) boot))
  = 1.
Proof.
  rewrite (unknown_transport_fails_every_attempt (settings "udp" 3 2)
             (fun _ => server_up) boot);
    [ split; reflexivity | discriminate | discriminate ].
Defined.

(** C1 as the specification words it fails: with [RCON_TRANSPORT=udp] the
    first attempt is logged as failed and the retry loop goes on. *)
Lemma unknown_transport_is_retried :
  ~ fatal_without_retry (settings "udp" 3 2) (fun _ => server_up).
Proof.
  intros [Hnone _].
  apply (Hnone 1 (UnknownTransport "udp")).
  vm_compute; auto.
Qed.

(* ================================================================= *)
(** ** A heartbeat that cannot be delivered *)

(** C10.  The counter is reset inside the [try] block, after the exchange
    and before the heartbeat is posted: an attempt whose exchange succeeds
    and whose POST throws leaves the counter at 0, the POST being the last
    thing it did.  Hence a cycle of at least one attempt in which every
    exchange succeeds and every POST throws returns [false] with the
    counter at exactly 1, whatever the counter was before, and prints a
    warning whenever the threshold exceeds 1. *)
Theorem counter_is_reset_before_the_heartbeat (cfg : Config) (k t : Z)
  (env : Z -> AttemptEnv) (w : World) :
  ATTEMPTS_PER_CYCLE cfg = Int k -> 1 <= k ->
  CONSECUTIVE_FAILURES_THRESHOLD cfg = Int t ->
  (forall a, 1 <= a <= k ->
             exchange_succeeds cfg (env a) = true /\
             failed (post (env a)) = true) ->
  (forall a w1, 1 <= a <= k ->
     let after := try_block cfg (toLowerCase (RCON_TRANSPORT cfg)) (env a) w1 in
     fst after = post (env a) /\
     consecutiveFailures (snd after) = 0 /\
     last (trace (snd after)) LogHeartbeat = HeartbeatPost) /\
  fst (checkServerWithRetry cfg env w) = Normal false /\
  consecutiveFailures (snd (checkServerWithRetry cfg env w)) = 1 /\
  (1 < t ->
   last (trace (snd (checkServerWithRetry cfg env w))) LogHeartbeat = LogWarn 1).
Proof.
  intros Hk Hk1 Ht Hall.
  set (tr := toLowerCase (RCON_TRANSPORT cfg)) in *.
  assert (Hex : forall a, 1 <= a <= k ->
                          exists u, result_of (exchange cfg tr (env a)) = Normal u).
  { intros a Ha; destruct (Hall a Ha) as [Hok _].
    unfold exchange_succeeds in Hok; fold tr in Hok.
    destruct (result_of (exchange cfg tr (env a))); [ eauto | discriminate ]. }
  split.
  - intros a w1 Ha; cbv zeta.
    destruct (Hex a Ha) as [u Hu]; destruct (Hall a Ha) as [_ Hpost].
    rewrite try_block_run, Hu.
    destruct (post (env a)) as [ | err ]; [ discriminate | ].
    simpl; repeat split.
    now rewrite app_assoc, last_last.
  - assert (Hfail : forall a, In a (attempt_indices (ATTEMPTS_PER_CYCLE cfg)) ->
                              failed (result_of (try_block cfg tr (env a))) = true).
    { intros a Ha; rewrite Hk in Ha; apply attempt_indices_below in Ha.
      destruct (Hex a Ha) as [u Hu]; destruct (Hall a Ha) as [_ Hpost].
      now rewrite try_block_result_of, Hu. }
    unfold checkServerWithRetry; fold tr; cbv zeta.
    rewrite (failed_cycle_form cfg (try_block cfg tr)
               (fun e => uniform_try_block cfg tr e) env w Hfail).
    cbv zeta; simpl fst; simpl snd; simpl consecutiveFailures; simpl trace.
    assert (Hreset : existsb (fun a => resets (try_block cfg tr (env a)))
                       (attempt_indices (ATTEMPTS_PER_CYCLE cfg)) = true).
    { apply existsb_exists; exists 1; split.
      - rewrite Hk; apply attempt_indices_spec; simpl; split; [ lia | ].
        apply Z.leb_le; lia.
      - rewrite try_block_resets.
        destruct (Hall 1 ltac:(lia)) as [Hok _]; exact Hok. }
    rewrite Hreset; repeat split.
    intro Hgt; rewrite app_assoc, last_last.
    apply (classify_warn cfg t); [ assumption | lia ].
Qed.

(** Two attempts over WebRCON, the server answers and the collector is
    down, with the counter at 4 before: the cycle leaves it at 1. *)
Lemma counter_is_reset_before_the_heartbeat_witness :
  consecutiveFailures
    (snd (checkServerWithRetry (settings "web" 2 3) (fun _ => collector_down)
            {| consecutiveFailures := 4; trace := [] |}))
  = 1.
Proof.
  destruct (counter_is_reset_before_the_heartbeat (settings "web" 2 3) 2 3
              (fun _ => collector_down)
              {| consecutiveFailures := 4; trace := [] |}
              eq_refl ltac:(lia) eq_refl)
    as (_ & _ & Hone & _).
  - intros a _; split; reflexivity.
  - exact Hone.
Defined.

(* ================================================================= *)
(** ** Jitter between failed attempts *)

Lemma appended_extension w w' es :
  trace w' = trace w ++ es -> appended w w' = es.
Proof.
  intro Heq; unfold appended; rewrite Heq.
  now rewrite skipn_app, skipn_all, Nat.sub_diag.
Qed.

Lemma attempt_indices_last k :
  1 <= k -> attempt_indices (Int k) = attempt_indices (Int (k - 1)) ++ [k].
Proof.
  intro Hk; unfold attempt_indices.
  replace (Z.to_nat k) with (S (Z.to_nat (k - 1))) by lia.
  rewrite seq_S, map_app; simpl.
  do 2 f_equal; lia.
Qed.

Lemma attempt_indices_none k : k <= 0 -> attempt_indices (Int k) = [].
Proof.
  intro Hk; unfold attempt_indices.
  now replace (Z.to_nat k) with 0%nat by lia.
Qed.

(** *** One double multiplication *)

Lemma nearest_even_error (n s : Z) :
  0 <= n -> 1 <= s ->
  n - 2 ^ (s - 1) <= nearest_even n s * 2 ^ s <= n + 2 ^ (s - 1).
Proof.
  intros Hn Hs; unfold nearest_even.
  assert (Hpow : 2 ^ s = 2 * 2 ^ (s - 1))
    by (rewrite <- Z.pow_succ_r by lia; f_equal; lia).
  assert (Hhalf : 0 < 2 ^ (s - 1)) by (apply Z.pow_pos_nonneg; lia).
  pose proof (Z.div_mod n (2 ^ s) ltac:(lia)) as Hdiv.
  pose proof (Z.mod_pos_bound n (2 ^ s) ltac:(lia)) as Hmod.
  set (q := n / 2 ^ s) in *; set (r := n mod 2 ^ s) in *.
  set (h := 2 ^ (s - 1)) in *.
  destruct (Z.ltb_spec r h); [ lia | ].
  destruct (Z.ltb_spec h r); [ lia | ].
  destruct (Z.even q); lia.
Qed.

Lemma to_53_bits_error (a : Z) :
  0 <= a ->
  (2 ^ 53 - 1) * a <= 2 ^ 53 * to_53_bits a <= (2 ^ 53 + 1) * a.
Proof.
  intro Ha; unfold to_53_bits.
  destruct (Z.ltb_spec a (2 ^ 53)) as [ Hsmall | Hbig ]; [ lia | ].
  assert (Hpos : 0 < a) by lia.
  destruct (Z.log2_spec a Hpos) as [Hlow _].
  assert (Hlog : 53 <= Z.log2 a) by (apply Z.log2_le_pow2; lia).
  set (s := Z.log2 a - 52) in *.
  pose proof (nearest_even_error a s Ha ltac:(lia)) as Herr.
  assert (Hsplit : 2 ^ Z.log2 a = 2 ^ 53 * 2 ^ (s - 1))
    by (rewrite <- Z.pow_add_r by lia; f_equal; lia).
  lia.
Qed.

Lemma dyadic_nonnegative (x e : Z) : 0 <= x -> (0 <= dyadic x e)%Q.
Proof.
  intro Hx; unfold dyadic.
  destruct (0 <=? e) eqn:He.
  - apply Z.leb_le in He.
    unfold Qle; simpl.
    pose proof (Z.pow_nonneg 2 e ltac:(lia)); nia.
  - unfold Qle; simpl; lia.
Qed.

Lemma dyadic_monotone (x y e : Z) : x <= y -> (dyadic x e <= dyadic y e)%Q.
Proof.
  intro Hxy; unfold dyadic.
  destruct (0 <=? e) eqn:He.
  - apply Z.leb_le in He.
    unfold Qle; simpl.
    pose proof (Z.pow_nonneg 2 e ltac:(lia)); nia.
  - unfold Qle; simpl; nia.
Qed.

Lemma dyadic_below (x e j : Z) :
  e <= 0 -> x < j * 2 ^ (- e) -> (dyadic x e < inject_Z j)%Q.
Proof.
  intros He Hx; unfold dyadic.
  destruct (Z.leb_spec 0 e) as [ H0 | Hneg ].
  - replace e with 0 in * by lia.
    unfold Qlt; simpl in *; lia.
  - assert (Hpow : 0 < 2 ^ (- e)) by (apply Z.pow_pos_nonneg; lia).
    unfold Qlt; simpl.
    rewrite Z2Pos.id by assumption; lia.
Qed.

Lemma dyadic_scaled (c x e : Z) :
  (inject_Z c * dyadic x e == dyadic (c * x) e)%Q.
Proof.
  unfold dyadic; destruct (0 <=? e).
  - rewrite <- inject_Z_mult; apply inject_Z_injective; ring.
  - unfold Qeq, Qmult; simpl; ring.
Qed.

Lemma dyadic_times (x e j : Z) :
  (dyadic x e * inject_Z j == dyadic (x * j) e)%Q.
Proof.
  rewrite Qmult_comm, dyadic_scaled.
  now replace (j * x) with (x * j) by ring.
Qed.

(** The double product of a [Math.random()] sample and a positive integer
    [j] is a number of milliseconds below [j], within one rounding of the
    exact product. *)
Lemma delay_in_range (r : double) (j : Z) :
  unit_sample r -> 0 < j < 2 ^ 1024 ->
  exists q, scale r (Int j) = Ms q /\
            (0 <= q /\ q < inject_Z j)%Q /\
            within_rounding q (value r * inject_Z j)%Q.
Proof.
  intros ([Hm0 Hm53] & [Hemin He0] & Hunit) [Hj Hjmax].
  destruct r as [m e]; simpl in *.
  unfold scale, times, value; simpl significand; simpl exponent.
  assert (Hn : 0 <= m * j) by nia.
  rewrite (Z.abs_eq (m * j)) by assumption.
  pose proof (to_53_bits_error (m * j) Hn) as Herr.
  set (x := to_53_bits (m * j)) in *.
  assert (Hx0 : 0 <= x) by nia.
  assert (Hsgn : Z.sgn (m * j) * x = x).
  { destruct (Z.eq_dec (m * j) 0) as [ H0 | Hne ].
    - rewrite H0 in *; simpl; lia.
    - rewrite Z.sgn_pos by lia; lia. }
  assert (Hpow : 0 < 2 ^ (- e)) by (apply Z.pow_pos_nonneg; lia).
  assert (Hxj : x < j * 2 ^ (- e)) by nia.
  assert (Hfinite :
            (if 0 <=? e then 2 ^ 1024 <=? x * 2 ^ e
             else 2 ^ (1024 - e) <=? x) = false).
  { destruct (Z.leb_spec 0 e) as [ H0 | Hneg ].
    - replace e with 0 in * by lia.
      apply Z.leb_gt; simpl in Hxj; lia.
    - apply Z.leb_gt.
      replace (1024 - e) with (1024 + - e) by lia.
      rewrite Z.pow_add_r by lia; nia. }
  rewrite Hfinite, Hsgn.
  eexists; split; [ reflexivity | ].
  split; [ split | split ].
  - now apply dyadic_nonnegative.
  - now apply dyadic_below.
  - rewrite dyadic_times, !dyadic_scaled.
    apply dyadic_monotone; lia.
  - rewrite dyadic_times, !dyadic_scaled.
    apply dyadic_monotone; lia.
Qed.

(** The multiplication rounds: with the largest sample below one and a
    bound of 300 the exact product 300 - 300/2^53 is not a double, and the
    delay is the double next to it, 300 - 2^-44. *)
Example product_of_the_largest_sample :
  scale {| significand := 2 ^ 53 - 1; exponent := -53 |} (Int 300)
  = Ms (dyadic (300 * 2 ^ 53 - 512) (-53)).
Proof. vm_compute; reflexivity. Qed.

Section Jitter.

Variable cfg : Config.
Variables k j : Z.
Hypothesis attempts : ATTEMPTS_PER_CYCLE cfg = Int k.
Hypothesis bound : JITTER_MS cfg = Int j.
Hypothesis bound_positive : 0 < j < 2 ^ 1024.

Variable block : AttemptEnv -> M unit.
Hypothesis block_uniform : forall e, uniform (block e).
Hypothesis block_no_sleep : forall e, sleeps (events_of (block e)) = [].

Let cycle (env : Z -> AttemptEnv) : M bool :=
  retry_cycle cfg (fun a => block (env a)) (fun a => random (env a)).
Let succeeds (e : AttemptEnv) : bool := negb (failed (result_of (block e))).
Let events (env : Z -> AttemptEnv) : Z -> list event :=
  attempt_events cfg (fun a => block (env a)) (fun a => random (env a)).
Let delay_after (env : Z -> AttemptEnv) (a : Z) : delay :=
  scale (random (env a)) (Int j).

Lemma sleeps_of_failed_attempt env a :
  failed (result_of (block (env a))) = true -> a < k ->
  sleeps (events env a) = [delay_after env a].
Proof.
  intros Hfail Ha; unfold events, attempt_events.
  rewrite sleeps_app, block_no_sleep.
  destruct (result_of (block (env a))); [ discriminate | ].
  unfold jitter; rewrite attempts, bound; simpl.
  now replace (a <? k) with true by (symmetry; apply Z.ltb_lt; lia).
Qed.

Lemma sleeps_of_last_attempt env a :
  k <= a -> sleeps (events env a) = [].
Proof.
  intros Ha; unfold events, attempt_events.
  rewrite sleeps_app, block_no_sleep.
  destruct (result_of (block (env a))); [ reflexivity | ].
  unfold jitter; rewrite attempts; simpl.
  now replace (a <? k) with false by (symmetry; apply Z.ltb_ge; lia).
Qed.

Lemma sleeps_of_successful_attempt env a :
  failed (result_of (block (env a))) = false ->
  sleeps (events env a) = [].
Proof.
  intros Hok; unfold events, attempt_events.
  rewrite sleeps_app, block_no_sleep.
  destruct (result_of (block (env a))); [ reflexivity | discriminate ].
Qed.

Lemma sleeps_of_failed_attempts env l :
  (forall a, In a l -> failed (result_of (block (env a))) = true /\ a < k) ->
  sleeps (flat_map (events env) l) = map (delay_after env) l.
Proof.
  induction l as [ | a l IH ]; intro Hall; simpl; [ reflexivity | ].
  destruct (Hall a) as [Hfail Ha]; [ now left | ].
  rewrite sleeps_app, sleeps_of_failed_attempt by assumption.
  rewrite IH; [ reflexivity | ].
  intros b Hb; apply Hall; now right.
Qed.

Lemma delays_of_failed_cycle env w :
  fst (cycle env w) = Normal false ->
  sleeps (appended w (snd (cycle env w)))
  = map (delay_after env) (attempt_indices (Int (k - 1))).
Proof.
  intro Hdown.
  pose proof (failed_cycle_inversion cfg block block_uniform env w Hdown) as Hall.
  unfold cycle.
  rewrite (failed_cycle_form cfg block block_uniform env w Hall).
  cbv zeta; simpl snd.
  erewrite appended_extension by reflexivity.
  rewrite sleeps_app.
  replace (sleeps [classify cfg _]) with (@nil delay)
    by (unfold classify; destruct (ge _ _); reflexivity).
  rewrite app_nil_r, attempts in *.
  destruct (Z_lt_le_dec k 1) as [ Hk | Hk ].
  - rewrite !attempt_indices_none by lia; reflexivity.
  - rewrite attempt_indices_last in * by assumption.
    fold (events env).
    rewrite flat_map_app, sleeps_app; cbn [flat_map].
    rewrite app_nil_r, sleeps_of_last_attempt, app_nil_r by lia.
    apply sleeps_of_failed_attempts.
    intros a Ha; split.
    + apply Hall, in_or_app; now left.
    + apply attempt_indices_below in Ha; lia.
Qed.

Lemma delays_of_successful_cycle env w a :
  1 <= a <= k -> succeeds (env a) = true ->
  (forall b, 1 <= b < a -> succeeds (env b) = false) ->
  sleeps (appended w (snd (cycle env w)))
  = map (delay_after env) (attempt_indices (Int (a - 1))).
Proof.
  intros Ha Hok Hbefore.
  destruct (attempt_indices_split k a Ha) as [post Hsplit].
  assert (Hpre : forall b, In b (attempt_indices (Int (a - 1))) ->
                           failed (result_of (block (env b))) = true).
  { intros b Hb; apply attempt_indices_below in Hb.
    specialize (Hbefore b ltac:(lia)); unfold succeeds in Hbefore.
    now apply negb_false_iff in Hbefore. }
  assert (Hthis : failed (result_of (block (env a))) = false)
    by (unfold succeeds in Hok; now apply negb_true_iff in Hok).
  unfold cycle.
  rewrite (succeeded_cycle_form cfg block block_uniform env w
             (attempt_indices (Int (a - 1))) a post);
    try assumption; [ | now rewrite attempts ].
  simpl snd; rewrite appended_after_events.
  fold (events env).
  rewrite flat_map_app, sleeps_app; cbn [flat_map].
  rewrite app_nil_r, sleeps_of_successful_attempt, app_nil_r by assumption.
  apply sleeps_of_failed_attempts.
  intros b Hb; split; [ now apply Hpre | ].
  apply attempt_indices_below in Hb; lia.
Qed.

Lemma cycle_jitter : jitter_between_failed_attempts k j cycle succeeds.
Proof.
  intros env w; cbv zeta.
  split; [ apply delays_of_failed_cycle | ].
  split; [ apply delays_of_successful_cycle | ].
  intros a Hunit; now apply delay_in_range.
Qed.

End Jitter.

(** C6.  In a cycle of K attempts with a positive jitter bound J, each
    failed attempt that is not the K-th is followed by one delay, the
    double product of a fresh [Math.random()] sample and J; that product is
    the exact one up to the rounding of the multiplication and lies in the
    interval from 0 to J, J excluded.  No delay follows the K-th attempt,
    nor a successful one.  Both revisions of the driver behave so. *)
Theorem jitter_only_between_attempts (cfg : Config) (k j : Z) :
  ATTEMPTS_PER_CYCLE cfg = Int k ->
  JITTER_MS cfg = Int j ->
  0 < j < 2 ^ 1024 ->
  jitter_between_failed_attempts k j (checkServerWithRetry cfg)
    (attempt_succeeds cfg) /\
  jitter_between_failed_attempts k j (Legacy.checkServerWithRetry cfg)
    legacy_attempt_succeeds.
Proof.
  intros Hk Hj Hpos; split.
  - apply (cycle_jitter cfg k j Hk Hj Hpos
             (try_block cfg (toLowerCase (RCON_TRANSPORT cfg)))).
    + intro e; apply uniform_try_block.
    + intro e; apply try_block_no_sleep.
  - apply (cycle_jitter cfg k j Hk Hj Hpos Legacy.try_block).
    + apply uniform_legacy_try_block.
    + apply legacy_no_sleep.
Qed.

(** Three attempts against a server that is down, with [JITTER_MS=300]
    and samples of one half: a delay of 150 ms after the first and after
    the second attempt, none after the third. *)
Lemma jitter_only_between_attempts_witness :
  sleeps (appended boot
            (snd (checkServerWithRetry (settings "web" 3 2)
                    (fun _ => server_down) boot)))
  = [Ms (300 # 2); Ms (300 # 2)] /\
  exists q, scale (random server_down) (Int 300) = Ms q /\
            (0 <= q /\ q < inject_Z 300)%Q /\
            within_rounding q (value (random server_down) * inject_Z 300)%Q.
Proof.
  destruct (jitter_only_between_attempts (settings "web" 3 2) 3 300
              eq_refl eq_refl ltac:(split; [ lia | reflexivity ])) as [Hweb _].
  destruct (Hweb (fun _ => server_down) boot) as (Hdown & _ & Hrange).
  split; [ exact (Hdown eq_refl) | ].
  apply (Hrange 1); repeat split; simpl; lia.
Defined.

(* ================================================================= *)
(** ** The heartbeat inside the attempt *)

Lemma posts_of_attempt cfg t env a :
  (posts (attempt_events cfg (fun b => try_block cfg t (env b))
            (fun b => random (env b)) a) <= 1)%nat.
Proof.
  unfold attempt_events; rewrite posts_app.
  pose proof (try_block_one_post cfg t (env a)) as Hone.
  destruct (result_of (try_block cfg t (env a))); simpl.
  - unfold posts in *; simpl; lia.
  - unfold jitter; destruct (lt _ _); unfold posts in *; simpl; lia.
Qed.

Lemma posts_of_attempts cfg t env l :
  (posts (flat_map (attempt_events cfg (fun b => try_block cfg t (env b))
                      (fun b => random (env b))) l)
   <= List.length l)%nat.
Proof.
  induction l as [ | a l IH ]; simpl; [ apply Nat.le_refl | ].
  rewrite posts_app.
  pose proof (posts_of_attempt cfg t env a); lia.
Qed.

(** C2, as the program has it.  A heartbeat POST that throws after a
    successful exchange is caught by the [catch] of its attempt like any
    other error: the counter has been reset by then, the error is logged as
    the failure of that attempt, the retry delay follows and the loop goes
    on with the next attempt.  The collector is called at most once per
    attempt; a cycle that returns [true] ends with a delivered heartbeat and
    the counter at 0; a cycle that returns [false] although some exchange
    succeeded ends with the counter at 1. *)
Theorem undelivered_heartbeat_fails_the_attempt (cfg : Config)
  (env : Z -> AttemptEnv) (w : World) :
  let t := toLowerCase (RCON_TRANSPORT cfg) in
  let block := fun a => try_block cfg t (env a) in
  let sample := fun a => random (env a) in
  let indices := attempt_indices (ATTEMPTS_PER_CYCLE cfg) in
  (forall a rest w1 err,
      exchange_succeeds cfg (env a) = true ->
      post (env a) = Throw err ->
      attempt_loop cfg block sample (a :: rest) w1
      = attempt_loop cfg block sample rest
          (after_events true
             (events_of (exchange cfg t (env a))
              ++ HeartbeatPost :: LogAttemptFailed a err
                 :: jitter cfg a (sample a)) w1)) /\
  (fst (checkServerWithRetry cfg env w) = Normal true ->
   consecutiveFailures (snd (checkServerWithRetry cfg env w)) = 0 /\
   exists es, trace (snd (checkServerWithRetry cfg env w))
              = es ++ [HeartbeatPost; LogHeartbeat]) /\
  (posts (appended w (snd (checkServerWithRetry cfg env w)))
   <= List.length indices)%nat /\
  (fst (checkServerWithRetry cfg env w) = Normal false ->
   (exists a, In a indices /\ exchange_succeeds cfg (env a) = true) ->
   consecutiveFailures (snd (checkServerWithRetry cfg env w)) = 1).
Proof.
  intros t block sample indices.
  assert (Huniform : forall e, uniform (try_block cfg t e))
    by (intro e; apply uniform_try_block).
  split; [ | split; [ | split ] ].
  - intros a rest w1 err Hok Hpost.
    unfold exchange_succeeds in Hok; fold t in Hok.
    rewrite (loop_step_failed cfg block sample (fun b => Huniform (env b)));
      unfold block at 1.
    + unfold attempt_events, block.
      rewrite try_block_resets, try_block_events_of, try_block_result_of, Hpost.
      destruct (result_of (exchange cfg t (env a))); [ | discriminate ].
      simpl negb; now rewrite <- app_assoc.
    + rewrite try_block_result_of, Hpost.
      destruct (result_of (exchange cfg t (env a))); [ reflexivity | discriminate ].
  - intro Hup.
    destruct (first_success (fun a => failed (result_of (try_block cfg t (env a))))
                indices)
      as [ Hall | (pre & a & later & Heq & Hpre & Ha) ].
    + unfold checkServerWithRetry in Hup; fold t in Hup; cbv zeta in Hup.
      rewrite (failed_cycle_form cfg (try_block cfg t) Huniform env w Hall) in Hup.
      discriminate.
    + unfold checkServerWithRetry; fold t; cbv zeta.
      rewrite (succeeded_cycle_form cfg (try_block cfg t) Huniform env w
                 pre a later Heq Hpre Ha).
      simpl; split.
      * rewrite existsb_app; simpl.
        rewrite (try_block_success_resets cfg t (env a) Ha), orb_true_r.
        reflexivity.
      * rewrite flat_map_app; simpl; unfold attempt_events at 2.
        rewrite try_block_events_of.
        rewrite try_block_result_of in Ha |- *.
        destruct (result_of (exchange cfg t (env a))); [ | discriminate ].
        destruct (post (env a)); [ | discriminate ].
        rewrite !app_nil_r, !app_assoc; eauto.
  - destruct (first_success (fun a => failed (result_of (try_block cfg t (env a))))
                indices)
      as [ Hall | (pre & a & later & Heq & Hpre & Ha) ].
    + unfold checkServerWithRetry; fold t; cbv zeta.
      rewrite (failed_cycle_form cfg (try_block cfg t) Huniform env w Hall).
      cbv zeta; simpl snd.
      erewrite appended_extension by reflexivity.
      rewrite posts_app.
      replace (posts [classify cfg _]) with 0%nat
        by (unfold classify; destruct (ge _ _); reflexivity).
      rewrite Nat.add_0_r; apply posts_of_attempts.
    + unfold checkServerWithRetry; fold t; cbv zeta.
      rewrite (succeeded_cycle_form cfg (try_block cfg t) Huniform env w
                 pre a later Heq Hpre Ha).
      simpl snd; rewrite appended_after_events.
      etransitivity; [ apply posts_of_attempts | ].
      fold indices; rewrite Heq, !length_app; simpl; lia.
  - intros Hdown (a & Hin & Hok).
    unfold checkServerWithRetry in *; fold t in Hdown |- *; cbv zeta in *.
    pose proof (failed_cycle_inversion cfg (try_block cfg t) Huniform env w Hdown)
      as Hall.
    rewrite (failed_cycle_form cfg (try_block cfg t) Huniform env w Hall).
    cbv zeta; simpl.
    replace (existsb _ _) with true; [ reflexivity | ].
    symmetry; apply existsb_exists; exists a; split; [ exact Hin | ].
    rewrite try_block_resets; exact Hok.
Qed.

(** Three attempts over WebRCON, the server answers each time and the
    collector is down: the cycle fails and leaves the counter at 1. *)
Lemma undelivered_heartbeat_fails_the_attempt_witness :
  consecutiveFailures
    (snd (checkServerWithRetry (settings "web" 3 2) (fun _ => collector_down)
            boot))
  = 1.
Proof.
  destruct (undelivered_heartbeat_fails_the_attempt (settings "web" 3 2)
              (fun _ => collector_down) boot) as (_ & _ & _ & Hone).
  apply Hone; [ reflexivity | ].
  exists 1; split; [ now left | reflexivity ].
Defined.

(** C2 as the specification words it fails: when the server answers and
    the collector is down, the counter grows, the POST error is logged as
    an attempt failure and the collector is called in every attempt. *)
Lemma undelivered_heartbeat_counts_as_failure :
  ~ heartbeat_failure_kept_apart (settings "web" 3 2) (fun _ => collector_down)
      boot.
Proof.
  intros (Hcounter & _ & _).
  vm_compute in Hcounter; apply Hcounter; reflexivity.
Qed.

(* ================================================================= *)
(** ** The first attempt that delivers its heartbeat ends the cycle *)






(* ================================================================= *)
(** ** A socket error after the attempt is over *)

Lemma settled_is_dead cfg env pre :
  WebRcon.outcome (WebRcon.run cfg env pre) <> WebRcon.Pending ->
  WebRcon.live (WebRcon.run cfg env pre) = false.
Proof.
  intro Hsettled.
  destruct (WebRcon.live (WebRcon.run cfg env pre)) eqn:Hlive; [ | reflexivity ].
  exfalso; apply Hsettled.
  now apply (pending_fold cfg env pre WebRcon.start); [ simpl; tauto | ].
Qed.

(** The attempt lists the error among what it did. *)
Lemma late_error_of_the_socket cfg env pre rest err :
  WebRcon.construct env = Normal tt ->
  WebRcon.arrivals env = pre ++ rest ->
  WebRcon.outcome (WebRcon.run cfg env pre) <> WebRcon.Pending ->
  In (WebRcon.OnError err) rest ->
  In (UncaughtError err) (events_of (WebRcon.checkServerWebRCON cfg env)).
Proof.
  intros Hws Harrivals Hsettled Hlate.
  unfold events_of; rewrite checkServerWebRCON_run by assumption.
  rewrite Harrivals, run_app, dead_output by now apply settled_is_dead.
  unfold WebRcon.finish; simpl.
  destruct (WebRcon.outcome (WebRcon.run cfg env pre)); [ congruence | | ];
    simpl; right; apply in_or_app; right;
    apply in_flat_map; exists (WebRcon.OnError err); simpl; auto.
Qed.

Lemma web_exchange_events cfg e :
  events_of (exchange cfg "web" e)
  = events_of (WebRcon.checkServerWebRCON cfg (web e)).
Proof.
  unfold exchange, events_of, bind, ret; simpl.
  now destruct (WebRcon.checkServerWebRCON cfg (web e) probe) as [ [ v | err ] w ].
Qed.

(** C9.  An error that rejects the promise of an attempt is caught by the
    [catch] of that attempt, and the cycle driver returns a boolean.  But
    not every error of an attempt rejects its promise: [cleanup] removes
    the listeners of the socket and closes it only when it is open, so an
    ['error'] event that the socket emits after the attempt has been
    settled (the handshake timeout of a socket that was still connecting
    when the timer of the program fired) has no listener.  It is thrown
    outside every [try], and the process exits: the failure of an attempt
    does end the loop. *)
Theorem late_socket_error_escapes_the_attempt (cfg : Config)
  (env : Z -> AttemptEnv) (w : World) (k a : Z)
  (pre rest : list WebRcon.wakeup) (err : Error) :
  toLowerCase (RCON_TRANSPORT cfg) = "web"%string ->
  ATTEMPTS_PER_CYCLE cfg = Int k ->
  1 <= a <= k ->
  (forall b, 1 <= b < a -> attempt_succeeds cfg (env b) = false) ->
  WebRcon.construct (web (env a)) = Normal tt ->
  WebRcon.arrivals (web (env a)) = pre ++ rest ->
  WebRcon.outcome (WebRcon.run cfg (web (env a)) pre) <> WebRcon.Pending ->
  In (WebRcon.OnError err) rest ->
  (exists up, fst (checkServerWithRetry cfg env w) = Normal up) /\
  In (UncaughtError err) (appended w (snd (checkServerWithRetry cfg env w))) /\
  process_exits (appended w (snd (checkServerWithRetry cfg env w))) = true.
Proof.
  intros Hweb Hk Ha Hbefore Hws Harrivals Hsettled Hlate.
  assert (Hin : In (UncaughtError err)
                  (appended w (snd (checkServerWithRetry cfg env w)))).
  { destruct (attempt_indices_split k a Ha) as [post Hsplit].
    unfold checkServerWithRetry, retry_cycle; cbv zeta.
    rewrite Hk, Hsplit, Hweb.
    destruct (attempt_is_recorded cfg
                (fun b => try_block cfg "web" (env b))
                (fun b => random (env b))
                (fun b => uniform_try_block cfg "web" (env b))
                (attempt_indices (Int (a - 1))) a post w (UncaughtError err))
      as (es & Heq & Hin).
    - intros b Hb; apply attempt_indices_below in Hb.
      specialize (Hbefore b ltac:(lia)).
      unfold attempt_succeeds in Hbefore; rewrite Hweb in Hbefore.
      now apply negb_false_iff in Hbefore.
    - rewrite try_block_events_of, web_exchange_events.
      apply in_or_app; left.
      now apply (late_error_of_the_socket cfg (web (env a)) pre rest).
    - now rewrite (appended_extension _ _ _ Heq). }
  split; [ | split; [ exact Hin | ] ].
  - destruct (loop_returns cfg
                (fun b => try_block cfg (toLowerCase (RCON_TRANSPORT cfg)) (env b))
                (fun b => random (env b))
                (fun b => uniform_try_block cfg _ (env b))
                (attempt_indices (ATTEMPTS_PER_CYCLE cfg)) w)
      as (up & w' & Hrun).
    exists up; unfold checkServerWithRetry, retry_cycle; cbv zeta.
    now rewrite Hrun.
  - unfold process_exits; apply existsb_exists.
    exists (UncaughtError err); split; [ exact Hin | reflexivity ].
Qed.

(** The server accepts the connection and never answers the handshake:
    the first attempt times out, and the error that its socket raises
    next ends the process. *)
Lemma late_socket_error_escapes_the_attempt_witness :
  process_exits
    (appended boot
       (snd (checkServerWithRetry (settings "web" 3 2)
               (fun _ => handshake_hangs) boot)))
  = true.
Proof.
  apply (late_socket_error_escapes_the_attempt (settings "web" 3 2)
           (fun _ => handshake_hangs) boot 3 1
           [WebRcon.OnTimeout]
           [WebRcon.OnError (LibError "Opening handshake has timed out")]
           (LibError "Opening handshake has timed out"));
    first [ reflexivity | discriminate | lia | now left ].
Defined.

(* ================================================================= *)
(** * Further properties of the program *)

(** ** Settings at the edge *)

Lemma count_app p es es' : count p (es ++ es') = (count p es + count p es')%nat.
Proof. unfold count; now rewrite filter_app, length_app. Qed.

(** X1.  When [ATTEMPTS_PER_CYCLE] does not parse to a number, or parses
    to 0 or less, a cycle makes no attempt at all: it contacts nobody,
    counts as a failed cycle and prints its classification.  Both
    revisions. *)
Theorem no_attempt_without_a_positive_count (cfg : Config)
  (env : Z -> AttemptEnv) (w : World) :
  ATTEMPTS_PER_CYCLE cfg = NaN \/
  (exists k, ATTEMPTS_PER_CYCLE cfg = Int k /\ k <= 0) ->
  checkServerWithRetry cfg env w
  = (Normal false,
     {| consecutiveFailures := consecutiveFailures w + 1;
        trace := trace w ++ [classify cfg (consecutiveFailures w + 1)] |}) /\
  Legacy.checkServerWithRetry cfg env w = checkServerWithRetry cfg env w.
Proof.
  intro Hk.
  assert (Hnone : attempt_indices (ATTEMPTS_PER_CYCLE cfg) = []).
  { destruct Hk as [ -> | (k & -> & Hk) ]; [ reflexivity | ].
    now apply attempt_indices_none. }
  unfold checkServerWithRetry, Legacy.checkServerWithRetry, retry_cycle.
  rewrite Hnone; split; reflexivity.
Qed.

Lemma no_attempt_without_a_positive_count_witness :
  checkServerWithRetry (settings "web" 0 2) (fun _ => server_up) boot
  = (Normal false, {| consecutiveFailures := 1; trace := [LogWarn 1] |}).
Proof.
  destruct (no_attempt_without_a_positive_count (settings "web" 0 2)
              (fun _ => server_up) boot) as [Hrun _].
  - right; exists 0; split; [ reflexivity | lia ].
  - exact Hrun.
Defined.

(** X2.  The transport name is compared after lower-casing: two settings
    that differ only in the case of a known transport name behave alike. *)
Theorem transport_name_ignores_case (cfg : Config) (t t' : string)
  (env : Z -> AttemptEnv) (w : World) :
  toLowerCase t = toLowerCase t' ->
  toLowerCase t = "classic"%string \/ toLowerCase t = "web"%string ->
  checkServerWithRetry (with_transport t cfg) env w
  = checkServerWithRetry (with_transport t' cfg) env w.
Proof.
  intros Hsame Hknown.
  unfold checkServerWithRetry; simpl RCON_TRANSPORT; rewrite <- Hsame.
  destruct Hknown as [ -> | -> ]; reflexivity.
Qed.

Lemma transport_name_ignores_case_witness :
  checkServerWithRetry (with_transport "WEB" (settings "web" 3 2))
    scenario_A boot
  = checkServerWithRetry (with_transport "web" (settings "web" 3 2))
      scenario_A boot.
Proof.
  apply transport_name_ignores_case; [ reflexivity | right; reflexivity ].
Defined.

(** X3.  A threshold that does not parse never lets a failed cycle print
    [DOWN]; a threshold of 1 or less makes every failed cycle print
    [DOWN].  Both revisions. *)
Theorem threshold_at_the_edge (cfg : Config) (env : Z -> AttemptEnv)
  (w : World) :
  0 <= consecutiveFailures w ->
  (fst (checkServerWithRetry cfg env w) = Normal false ->
   let n := consecutiveFailures (snd (checkServerWithRetry cfg env w)) in
   let printed := last (trace (snd (checkServerWithRetry cfg env w))) LogHeartbeat in
   (CONSECUTIVE_FAILURES_THRESHOLD cfg = NaN -> printed = LogWarn n) /\
   (forall t, CONSECUTIVE_FAILURES_THRESHOLD cfg = Int t -> t <= 1 ->
              printed = LogDown n)) /\
  (fst (Legacy.checkServerWithRetry cfg env w) = Normal false ->
   let n := consecutiveFailures (snd (Legacy.checkServerWithRetry cfg env w)) in
   let printed :=
     last (trace (snd (Legacy.checkServerWithRetry cfg env w))) LogHeartbeat in
   (CONSECUTIVE_FAILURES_THRESHOLD cfg = NaN -> printed = LogWarn n) /\
   (forall t, CONSECUTIVE_FAILURES_THRESHOLD cfg = Int t -> t <= 1 ->
              printed = LogDown n)).
Proof.
  intro Hpos; split.
  - unfold checkServerWithRetry; cbv zeta; intro Hdown.
    destruct (failed_cycle_classified cfg
                (try_block cfg (toLowerCase (RCON_TRANSPORT cfg)))
                (fun e => uniform_try_block _ _ e) env w Hpos Hdown)
      as [Hn Hlast].
    rewrite Hlast; set (n := consecutiveFailures (snd _)) in *.
    split.
    + intro Hnan; unfold classify; now rewrite Hnan.
    + intros t Ht Hle; apply (classify_down cfg t); [ assumption | lia ].
  - unfold Legacy.checkServerWithRetry; intro Hdown.
    destruct (failed_cycle_classified cfg Legacy.try_block
                uniform_legacy_try_block env w Hpos Hdown)
      as [Hn Hlast].
    cbv zeta; rewrite Hlast; set (n := consecutiveFailures (snd _)) in *.
    split.
    + intro Hnan; unfold classify; now rewrite Hnan.
    + intros t Ht Hle; apply (classify_down cfg t); [ assumption | lia ].
Qed.

Lemma threshold_at_the_edge_witness :
  last (trace (snd (checkServerWithRetry (settings "web" 3 1)
                      (fun _ => server_down) boot))) LogHeartbeat
  = LogDown 1.
Proof.
  destruct (threshold_at_the_edge (settings "web" 3 1) (fun _ => server_down)
              boot ltac:(simpl; lia)) as [Hweb _].
  destruct (Hweb eq_refl) as [_ Hdown].
  apply (Hdown 1); [ reflexivity | lia ].
Defined.

(* ================================================================= *)
(** ** The classic exchange *)

Lemma classic_run env w :
  Classic.checkServerClassicRCON env w
  = (result_of (Classic.checkServerClassicRCON env),
     after_events false (events_of (Classic.checkServerClassicRCON env)) w).
Proof. apply passive_run, passive_classic. Qed.

(** X4.  [checkServerClassicRCON] never leaves a connection behind and
    never talks to a server it could not connect to: when [Rcon.connect]
    fails, nothing else is called and its error is the result; when it
    succeeds, the command is sent once and [rcon.end()] is called once,
    or twice when the command went through and the first [rcon.end()]
    threw.  The function returns [true] exactly when connecting, the
    command and the first [rcon.end()] all succeed. *)
Theorem classic_connection_is_always_ended (env : Classic.Env) (w : World) :
  let run := Classic.checkServerClassicRCON env w in
  let es := appended w (snd run) in
  (forall err, Classic.connect env = Throw err ->
               es = [RconConnect] /\ fst run = Throw err) /\
  (failed (Classic.connect env) = false ->
   count is_rcon_send es = 1%nat /\
   count is_rcon_end es
   = (if negb (failed (Classic.send env)) && failed (Classic.end_after_send env)
      then 2 else 1)%nat) /\
  (fst run = Normal true <->
   failed (Classic.connect env) = false /\
   failed (Classic.send env) = false /\
   failed (Classic.end_after_send env) = false) /\
  consecutiveFailures (snd run) = consecutiveFailures w.
Proof.
  cbv zeta; rewrite classic_run; cbn [fst snd]; rewrite appended_after_events.
  destruct env as [c s e1 e2]; simpl Classic.connect; simpl Classic.send;
    simpl Classic.end_after_send.
  unfold result_of, events_of, Classic.checkServerClassicRCON, try_catch, bind,
    external, emit, ret, throw; simpl.
  destruct c as [ [] | connectError ], s as [ response | sendError ],
    e1 as [ [] | endError ], e2 as [ [] | catchError ]; simpl;
    (split; [ intros err H; try discriminate; injection H as <-; auto | ]);
    (split; [ intro H; try discriminate; auto | ]);
    (split; [ | reflexivity ]);
    (split; [ intro H; try discriminate; auto
            | intros (H1 & H2 & H3); try discriminate; auto ]).
Qed.

(** The connection is made and the command times out: the connection is
    ended once. *)
Lemma classic_connection_is_always_ended_witness :
  count is_rcon_end
    (appended boot (snd (Classic.checkServerClassicRCON classic_hangs boot)))
  = 1%nat.
Proof.
  destruct (classic_connection_is_always_ended classic_hangs boot)
    as (_ & Hended & _).
  exact (proj2 (Hended eq_refl)).
Defined.

(** X5.  When [rcon.end()] in the [catch] of [checkServerClassicRCON]
    throws, its error replaces the error that was being handled; otherwise
    the error of the command (or of the first [rcon.end()]) is what the
    function throws. *)
Theorem classic_error_can_be_masked (env : Classic.Env) (w : World)
  (cmdError : Error) :
  failed (Classic.connect env) = false ->
  Classic.send env = Throw cmdError \/
  (failed (Classic.send env) = false /\
   Classic.end_after_send env = Throw cmdError) ->
  fst (Classic.checkServerClassicRCON env w)
  = match Classic.end_in_catch env with
    | Normal _ => Throw cmdError
    | Throw endError => Throw endError
    end.
Proof.
  intros Hc Hcmd; rewrite classic_run; simpl fst.
  destruct env as [c s e1 e2]; simpl in *.
  unfold result_of, Classic.checkServerClassicRCON, try_catch, bind,
    external, emit, ret, throw; simpl.
  destruct c; [ | discriminate ].
  destruct Hcmd as [ -> | [Hs ->] ].
  - destruct e2; reflexivity.
  - destruct s; [ | discriminate ].
    destruct e2; reflexivity.
Qed.

Lemma classic_error_can_be_masked_witness :
  fst (Classic.checkServerClassicRCON classic_hangs boot)
  = Throw (LibError "Timeout for packet id 1").
Proof.
  apply (classic_error_can_be_masked classic_hangs boot
           (LibError "Timeout for packet id 1")); [ reflexivity | ].
  left; reflexivity.
Defined.

(* ================================================================= *)
(** ** The WebRCON session, whatever arrives *)

Section Shapes.

Variable cfg : Config.
Variable env : WebRcon.Env.

Local Abbreviation deliver := (WebRcon.deliver cfg env).
Local Abbreviation st := (WebRcon.state_at_cleanup env).

(** The five things a wake-up can do to a session that is still alive. *)
Lemma deliver_shapes s w :
  WebRcon.live s = true ->
  deliver s w = s \/
  deliver s w = WebRcon.say (WsSend (WebRcon.authMessage cfg)) s \/
  (WebRcon.authSuccess s = false /\
   deliver s w
   = WebRcon.say (WsSend (WebRcon.commandMessage cfg (WebRcon.now env)))
       {| WebRcon.authSuccess := true;
          WebRcon.commandId := Some (WebRcon.now env);
          WebRcon.live := WebRcon.live s;
          WebRcon.outcome := WebRcon.outcome s;
          WebRcon.output := WebRcon.output s |}) \/
  (WebRcon.authSuccess s = true /\
   exists preview,
     deliver s w
     = WebRcon.resolve (JBool true)
         (WebRcon.cleanup true st (WebRcon.say (LogUp preview) s))) \/
  (exists err, deliver s w = WebRcon.reject err (WebRcon.cleanup true st s)).
Proof.
  intro Hlive; unfold WebRcon.deliver; rewrite Hlive.
  destruct w as [ | [ why | msg ] | | err | ].
  - right; left; reflexivity.
  - do 4 right; eexists; reflexivity.
  - unfold WebRcon.on_message, WebRcon.handle, WebRcon.parse, and_then.
    destruct (WebRcon.authSuccess s) eqn:Hauth; simpl.
    + destruct (get msg "Identifier") as [ ident | err ];
        [ | do 4 right; eexists; reflexivity ].
      destruct (strict_eq ident (WebRcon.commandId s)); [ | now left ].
      destruct (get msg "Message") as [ field | err ];
        [ | do 4 right; eexists; reflexivity ].
      destruct (WebRcon.responsePreview field) as [ preview | err ];
        [ | do 4 right; eexists; reflexivity ].
      do 3 right; left; split; [ reflexivity | eexists; reflexivity ].
    + destruct (get msg "Identifier") as [ ident | err ];
        [ | do 4 right; eexists; reflexivity ].
      destruct (strict_eq ident (Some (-1))); [ | now left ].
      do 2 right; left; split; [ reflexivity | now rewrite Hlive ].
  - unfold WebRcon.on_close.
    destruct (negb (WebRcon.authSuccess s)); [ | now left ].
    do 4 right; eexists; reflexivity.
  - do 4 right; eexists; reflexivity.
  - do 4 right; eexists; reflexivity.
Qed.

Lemma sound_start : session_sound env WebRcon.start.
Proof.
  repeat split; simpl; try reflexivity; try discriminate.
Qed.

Lemma sound_rejected s err :
  session_sound env s -> WebRcon.live s = true ->
  session_sound env (WebRcon.reject err (WebRcon.cleanup true st s)).
Proof.
  intros (Hp & Hc & Hk & Hf) Hlive.
  assert (Hpending : WebRcon.outcome s = WebRcon.Pending) by now apply Hp.
  rewrite Hlive in Hc.
  unfold session_sound, WebRcon.reject, WebRcon.settle; simpl.
  rewrite Hpending; simpl.
  rewrite !count_app, Hc, Hk.
  split; [ split; intro; discriminate | ].
  split; [ unfold open_at_cleanup; destruct st; reflexivity | ].
  split; [ | intros v Hv; discriminate ].
  destruct st, (WebRcon.authSuccess s); reflexivity.
Qed.

Lemma sound_resolved s preview :
  session_sound env s -> WebRcon.live s = true ->
  WebRcon.authSuccess s = true ->
  session_sound env
    (WebRcon.resolve (JBool true)
       (WebRcon.cleanup true st (WebRcon.say (LogUp preview) s))).
Proof.
  intros (Hp & Hc & Hk & Hf) Hlive Hauth.
  assert (Hpending : WebRcon.outcome s = WebRcon.Pending) by now apply Hp.
  rewrite Hlive in Hc.
  unfold session_sound, WebRcon.resolve, WebRcon.settle; simpl.
  rewrite Hpending; simpl.
  rewrite !count_app, Hc, Hk, Hauth.
  split; [ split; intro; discriminate | ].
  split; [ unfold open_at_cleanup; destruct st; reflexivity | ].
  split; [ destruct st; reflexivity | ].
  intros v Hv; injection Hv as <-; auto.
Qed.

Lemma sound_uncaught s err :
  session_sound env s -> session_sound env (WebRcon.say (UncaughtError err) s).
Proof.
  intros (Hp & Hc & Hk & Hf).
  unfold session_sound; simpl; rewrite !count_app, Hc, Hk.
  split; [ exact Hp | ].
  split; [ unfold count; simpl; lia | ].
  split; [ unfold count; simpl; lia | exact Hf ].
Qed.

Lemma sound_deliver s w :
  session_sound env s -> session_sound env (deliver s w).
Proof.
  intro Hs.
  destruct (WebRcon.live s) eqn:Hlive;
    [ | rewrite deliver_dead by assumption;
        destruct w; try exact Hs; now apply sound_uncaught ].
  destruct (deliver_shapes s w Hlive)
    as [ -> | [ -> | [ [Hauth ->] | [ [Hauth [preview ->]] | [err ->] ] ] ] ].
  - exact Hs.
  - destruct Hs as (Hp & Hc & Hk & Hf).
    unfold session_sound; simpl; rewrite !count_app, Hc, Hk.
    split; [ exact Hp | ].
    split; [ unfold count; simpl; lia | ].
    split; [ unfold count; simpl; lia | exact Hf ].
  - destruct Hs as (Hp & Hc & Hk & Hf).
    unfold session_sound; simpl; rewrite !count_app, Hc, Hk, Hauth.
    split; [ exact Hp | ].
    split; [ unfold count; simpl; lia | ].
    split; [ reflexivity | ].
    intros v Hv; split; [ now apply (Hf v) | reflexivity ].
  - now apply sound_resolved.
  - now apply sound_rejected.
Qed.

Lemma sound_fold ws s :
  session_sound env s -> session_sound env (fold_left deliver ws s).
Proof.
  revert s; induction ws as [ | w ws IH ]; intros s Hs; simpl; auto.
  apply IH, sound_deliver, Hs.
Qed.

Lemma sound_finish s :
  session_sound env s ->
  session_sound env (WebRcon.finish env s) /\
  WebRcon.live (WebRcon.finish env s) = false.
Proof.
  intros Hs; pose proof Hs as (Hp & _).
  unfold WebRcon.finish.
  destruct (WebRcon.outcome s) eqn:Ho.
  - assert (Hlive : WebRcon.live s = true) by now apply Hp.
    split; [ now apply sound_rejected | ].
    unfold WebRcon.on_timeout, WebRcon.reject, WebRcon.settle; simpl.
    now rewrite Ho.
  - split; [ exact Hs | ].
    destruct (WebRcon.live s); [ | reflexivity ].
    destruct Hp as [Hp _]; specialize (Hp eq_refl); congruence.
  - split; [ exact Hs | ].
    destruct (WebRcon.live s); [ | reflexivity ].
    destruct Hp as [Hp _]; specialize (Hp eq_refl); congruence.
Qed.

Lemma web_run w :
  WebRcon.checkServerWebRCON cfg env w
  = (result_of (WebRcon.checkServerWebRCON cfg env),
     after_events false (events_of (WebRcon.checkServerWebRCON cfg env)) w).
Proof. apply passive_run, passive_web. Qed.

End Shapes.

(* ================================================================= *)
(** ** What [checkServerWebRCON] does with its socket *)

Lemma construct_ok (env : WebRcon.Env) :
  failed (WebRcon.construct env) = false -> WebRcon.construct env = Normal tt.
Proof. destruct (WebRcon.construct env) as [ [] | ]; [ reflexivity | discriminate ]. Qed.

Lemma web_session_sound cfg env :
  session_sound env
    (WebRcon.finish env (WebRcon.run cfg env (WebRcon.arrivals env))) /\
  WebRcon.live
    (WebRcon.finish env (WebRcon.run cfg env (WebRcon.arrivals env))) = false.
Proof. apply sound_finish, sound_fold, sound_start. Qed.

Lemma constructor_throws cfg env w err :
  WebRcon.construct env = Throw err ->
  appended w (snd (WebRcon.checkServerWebRCON cfg env w)) = [WsConstruct] /\
  fst (WebRcon.checkServerWebRCON cfg env w) = Throw err.
Proof.
  intro Herr.
  unfold WebRcon.checkServerWebRCON; rewrite Herr.
  unfold bind, emit, emit_all, appended; simpl.
  rewrite <- app_assoc, skipn_app, skipn_all, Nat.sub_diag; simpl.
  split; reflexivity.
Qed.

(** X6.  [checkServerWebRCON] closes the socket itself exactly once when
    the socket is open at the moment the attempt ends, and never
    otherwise: a socket that is still connecting when the timer fires is
    left alone.  When [new WebSocket] throws, nothing is sent or closed and
    the error is the result. *)
Theorem socket_is_closed_once_if_open (cfg : Config) (env : WebRcon.Env)
  (w : World) :
  let run := WebRcon.checkServerWebRCON cfg env w in
  (forall err, WebRcon.construct env = Throw err ->
               appended w (snd run) = [WsConstruct] /\ fst run = Throw err) /\
  (failed (WebRcon.construct env) = false ->
   count is_ws_close (appended w (snd run))
   = (if open_at_cleanup env then 1 else 0)%nat).
Proof.
  cbv zeta; split.
  - intros err Herr; now apply constructor_throws.
  - intro Hok; apply construct_ok in Hok.
    rewrite checkServerWebRCON_run by assumption; cbn [snd].
    rewrite appended_after_events.
    destruct (web_session_sound cfg env) as [(_ & Hcloses & _) Hdead].
    rewrite Hdead in Hcloses.
    change (WsConstruct :: ?l) with ([WsConstruct] ++ l).
    now rewrite count_app, Hcloses.
Qed.

(** The server never answers: the timer fires and the open socket is
    closed. *)
Lemma socket_is_closed_once_if_open_witness :
  count is_ws_close
    (appended boot
       (snd (WebRcon.checkServerWebRCON (settings "web" 3 2) web_silent boot)))
  = 1%nat.
Proof.
  destruct (socket_is_closed_once_if_open (settings "web" 3 2) web_silent boot)
    as [_ Hclosed].
  exact (Hclosed eq_refl).
Defined.

(** X7.  In one attempt [checkServerWebRCON] sends at most one command
    frame, and it resolves only after it has sent one, and only with
    [true]. *)
Theorem at_most_one_command_per_attempt (cfg : Config) (env : WebRcon.Env)
  (w : World) :
  let run := WebRcon.checkServerWebRCON cfg env w in
  (count is_command_frame (appended w (snd run)) <= 1)%nat /\
  (forall v, fst run = Normal v ->
             v = JBool true /\
             count is_command_frame (appended w (snd run)) = 1%nat).
Proof.
  cbv zeta.
  destruct (WebRcon.construct env) as [ [] | err ] eqn:Hws.
  - rewrite checkServerWebRCON_run by assumption; cbn [fst snd].
    rewrite appended_after_events.
    destruct (web_session_sound cfg env) as [(_ & _ & Hcommands & Hresolved) _].
    change (WsConstruct :: ?l) with ([WsConstruct] ++ l).
    rewrite count_app, Hcommands.
    set (s := WebRcon.finish env _) in *.
    split.
    + destruct (WebRcon.authSuccess s); unfold count; simpl; lia.
    + intros v Hv; unfold WebRcon.awaited in Hv.
      destruct (WebRcon.outcome s) as [ | v' | err ] eqn:Ho; try discriminate.
      injection Hv as <-.
      destruct (Hresolved v' eq_refl) as [-> Hauth].
      rewrite Hauth; split; reflexivity.
  - destruct (constructor_throws cfg env w err Hws) as [-> ->].
    split; [ unfold count; simpl; lia | intros v Hv; discriminate ].
Qed.

Lemma at_most_one_command_per_attempt_witness :
  count is_command_frame
    (appended boot
       (snd (WebRcon.checkServerWebRCON (settings "web" 3 2) web_up boot)))
  = 1%nat.
Proof.
  destruct (at_most_one_command_per_attempt (settings "web" 3 2) web_up boot)
    as [_ Hsent].
  exact (proj2 (Hsent (JBool true) eq_refl)).
Defined.

(** X8.  Once the promise is settled, nothing that arrives later changes
    how the attempt ends, nor what the program has sent and printed: no
    code of the program runs any more.  The one kind of arrival that
    leaves a mark is a socket error, which nobody listens to any longer:
    each of them is an uncaught exception. *)
Theorem settled_attempt_ignores_later_arrivals (cfg : Config)
  (env : WebRcon.Env) (pre rest : list WebRcon.wakeup) (w : World) :
  WebRcon.arrivals env = pre ++ rest ->
  WebRcon.outcome (WebRcon.run cfg env pre) <> WebRcon.Pending ->
  fst (WebRcon.checkServerWebRCON cfg env w)
  = fst (WebRcon.checkServerWebRCON cfg (with_arrivals pre env) w) /\
  (WebRcon.construct env = Normal tt ->
   snd (WebRcon.checkServerWebRCON cfg env w)
   = after_events false (uncaught_errors rest)
       (snd (WebRcon.checkServerWebRCON cfg (with_arrivals pre env) w))).
Proof.
  intros Harrivals Hsettled.
  assert (Hdead : WebRcon.live (WebRcon.run cfg env pre) = false).
  { destruct (WebRcon.live (WebRcon.run cfg env pre)) eqn:Hlive;
      [ | reflexivity ].
    exfalso; apply Hsettled.
    now apply (pending_fold cfg env pre WebRcon.start); [ simpl; tauto | ]. }
  destruct (WebRcon.construct env) as [ [] | err ] eqn:Hws.
  - rewrite (checkServerWebRCON_run cfg env w Hws).
    rewrite (checkServerWebRCON_run cfg (with_arrivals pre env) w Hws).
    simpl WebRcon.arrivals; rewrite Harrivals, run_app, dead_output by assumption.
    change (WebRcon.run cfg (with_arrivals pre env) pre)
      with (WebRcon.run cfg env pre).
    change (WebRcon.finish (with_arrivals pre env))
      with (WebRcon.finish env).
    destruct (WebRcon.run cfg env pre) as [auth id alive [ | v | err ] out];
      [ now elim Hsettled | | ];
      (split; [ reflexivity | intros _ ]);
      unfold after_events; simpl; now rewrite <- !app_assoc.
  - split; [ | discriminate ].
    unfold WebRcon.checkServerWebRCON; simpl WebRcon.construct.
    now rewrite Hws.
Qed.

(** The timer of the program fires during the handshake, and the error
    that the socket raises for its own handshake timeout finds no
    listener. *)
Lemma settled_attempt_ignores_later_arrivals_witness :
  fst (WebRcon.checkServerWebRCON (settings "web" 3 2) web_handshake_hangs boot)
  = Throw WebRconTimeout /\
  trace (snd (WebRcon.checkServerWebRCON (settings "web" 3 2)
                web_handshake_hangs boot))
  = [WsConstruct;
     UncaughtError (LibError "Opening handshake has timed out")].
Proof.
  destruct (settled_attempt_ignores_later_arrivals (settings "web" 3 2)
              web_handshake_hangs [WebRcon.OnTimeout]
              [WebRcon.OnError (LibError "Opening handshake has timed out")]
              boot)
    as [Hends Hmark]; [ reflexivity | discriminate | ].
  split; [ rewrite Hends; reflexivity | ].
  rewrite Hmark by reflexivity; reflexivity.
Defined.

(** X9.  While the attempt is pending, whether the handshake is over or
    not: a socket error rejects it with that error, the timer with the
    timeout error, a frame that is not JSON with a parse error that carries
    the parser's message, and the JSON frame [null] with a parse error
    too. *)
Theorem pending_attempt_fails_on_first_error (cfg : Config)
  (env : WebRcon.Env) (pre rest : list WebRcon.wakeup)
  (next : WebRcon.wakeup) (w : World) :
  WebRcon.construct env = Normal tt ->
  WebRcon.arrivals env = pre ++ next :: rest ->
  WebRcon.outcome (WebRcon.run cfg env pre) = WebRcon.Pending ->
  match next with
  | WebRcon.OnError err =>
      fst (WebRcon.checkServerWebRCON cfg env w) = Throw err
  | WebRcon.OnTimeout =>
      fst (WebRcon.checkServerWebRCON cfg env w) = Throw WebRconTimeout
  | WebRcon.OnMessage (WebRcon.NotJson why) =>
      fst (WebRcon.checkServerWebRCON cfg env w) = Throw (WebRconParseError why)
  | WebRcon.OnMessage (WebRcon.Json JNull) =>
      fst (WebRcon.checkServerWebRCON cfg env w)
      = Throw (WebRconParseError
                 "Cannot read properties of null (reading 'Identifier')")
  | _ => True
  end.
Proof.
  intros Hws Harrivals Hpending.
  assert (Hlive : WebRcon.live (WebRcon.run cfg env pre) = true)
    by now apply pending_run.
  assert (Hrejected : forall err,
             WebRcon.deliver cfg env (WebRcon.run cfg env pre) next
             = WebRcon.reject err
                 (WebRcon.cleanup true (WebRcon.state_at_cleanup env)
                    (WebRcon.run cfg env pre)) ->
             fst (WebRcon.checkServerWebRCON cfg env w) = Throw err).
  { intros err Hstep.
    rewrite checkServerWebRCON_run by assumption; cbn [fst].
    rewrite Harrivals, run_app; simpl fold_left; rewrite Hstep.
    match goal with
    | |- context [fold_left _ rest ?s] =>
        destruct (finish_dead cfg env rest s) as [Hsame _]
    end;
      try (unfold WebRcon.reject, WebRcon.settle; simpl; rewrite Hpending;
           simpl; first [ reflexivity | discriminate ]).
    rewrite Hsame.
    unfold WebRcon.awaited, WebRcon.reject, WebRcon.settle;
      simpl; rewrite Hpending; reflexivity. }
  destruct next as [ | [ why | [ | | | | | ] ] | | err | ]; try exact I;
    apply Hrejected; unfold WebRcon.deliver; rewrite Hlive; try reflexivity.
  unfold WebRcon.on_message, WebRcon.handle; simpl.
  destruct (WebRcon.authSuccess (WebRcon.run cfg env pre)); reflexivity.
Qed.

Lemma pending_attempt_fails_on_first_error_witness :
  fst (WebRcon.checkServerWebRCON (settings "web" 3 2) web_garbled boot)
  = Throw (WebRconParseError "Unexpected token < in JSON").
Proof.
  apply (pending_attempt_fails_on_first_error (settings "web" 3 2) web_garbled
           [WebRcon.OnOpen; WebRcon.OnMessage (WebRcon.Json auth_signal)]
           [WebRcon.OnMessage
              (WebRcon.Json (answer 1700000000000 "hostname: X"))]
           (WebRcon.OnMessage (WebRcon.NotJson "Unexpected token < in JSON")));
    reflexivity.
Defined.

(** X10.  After the handshake a [close] of the socket does not end the
    attempt: as long as no frame answers the command (and nothing fails),
    the attempt lasts until the timer fires and is rejected with the
    timeout error.  The same holds when the signal never arrives. *)
Theorem unanswered_attempt_times_out (cfg : Config) (env : WebRcon.Env)
  (w : World) (pre mid : list WebRcon.wakeup) (signal : json) :
  WebRcon.construct env = Normal tt ->
  forallb quiet_before pre = true ->
  is_auth_signal signal = true ->
  forallb (quiet_after (WebRcon.now env)) mid = true ->
  (WebRcon.arrivals env = pre ->
   fst (WebRcon.checkServerWebRCON cfg env w) = Throw WebRconTimeout) /\
  (WebRcon.arrivals env
   = pre ++ WebRcon.OnMessage (WebRcon.Json signal) :: mid ->
   fst (WebRcon.checkServerWebRCON cfg env w) = Throw WebRconTimeout /\
   In (WsSend (WebRcon.commandMessage cfg (WebRcon.now env)))
      (trace (snd (WebRcon.checkServerWebRCON cfg env w)))).
Proof.
  intros Hws Hpre Hsignal Hmid.
  assert (H0 : awaiting_signal WebRcon.start) by (repeat split).
  pose proof (quiet_before_fold cfg env pre _ H0 Hpre) as H1.
  fold (WebRcon.run cfg env pre) in H1.
  split; intro Harrivals;
    rewrite checkServerWebRCON_run by assumption; rewrite Harrivals.
  - destruct H1 as (_ & _ & Hpending); cbn [fst].
    unfold WebRcon.finish, WebRcon.awaited; rewrite Hpending.
    unfold WebRcon.on_timeout, WebRcon.reject, WebRcon.settle; simpl.
    now rewrite Hpending.
  - rewrite run_app; simpl fold_left.
    pose proof (signal_step cfg env _ signal H1 Hsignal) as H2.
    pose proof (quiet_after_fold cfg env mid _ H2 Hmid) as H3.
    destruct H3 as (_ & _ & _ & Hpending & Hsent); cbn [fst snd].
    unfold WebRcon.finish, WebRcon.awaited; rewrite Hpending.
    unfold WebRcon.on_timeout, WebRcon.reject, WebRcon.settle; simpl.
    rewrite Hpending; simpl; split; [ reflexivity | ].
    apply in_or_app; right; right.
    apply in_or_app; now left.
Qed.

Lemma unanswered_attempt_times_out_witness :
  fst (WebRcon.checkServerWebRCON (settings "web" 3 2) web_closes_after_auth
         boot)
  = Throw WebRconTimeout.
Proof.
  destruct (unanswered_attempt_times_out (settings "web" 3 2)
              web_closes_after_auth boot [WebRcon.OnOpen] [WebRcon.OnClose]
              auth_signal eq_refl eq_refl eq_refl eq_refl) as [_ Hclosed].
  exact (proj1 (Hclosed eq_refl)).
Defined.

(* ================================================================= *)
(** ** Heartbeats and log lines of a cycle *)

Lemma failed_attempts_app es es' :
  failed_attempts (es ++ es') = failed_attempts es ++ failed_attempts es'.
Proof. unfold failed_attempts; apply flat_map_app. Qed.

Lemma protocol_no_heartbeat_log es :
  forallb protocol_event es = true -> count is_heartbeat_log es = 0%nat.
Proof.
  induction es as [ | e es IH ]; simpl; [ reflexivity | ].
  intro H; apply andb_true_iff in H as [He Hes].
  destruct e; try discriminate; unfold count in *; simpl; auto.
Qed.

Lemma protocol_no_failure_line es :
  forallb protocol_event es = true -> failed_attempts es = [].
Proof.
  induction es as [ | e es IH ]; simpl; [ reflexivity | ].
  intro H; apply andb_true_iff in H as [He Hes].
  destruct e; try discriminate; simpl; auto.
Qed.

Lemma try_block_delivers cfg t e :
  count is_heartbeat_log (events_of (try_block cfg t e))
  = (if failed (result_of (try_block cfg t e)) then 0 else 1)%nat.
Proof.
  rewrite try_block_events_of, try_block_result_of, count_app.
  rewrite (protocol_no_heartbeat_log _ (exchange_events_protocol cfg t e)).
  destruct (result_of (exchange cfg t e)); [ destruct (post e) | ]; reflexivity.
Qed.

Lemma try_block_no_failure_line cfg t e :
  failed_attempts (events_of (try_block cfg t e)) = [].
Proof.
  rewrite try_block_events_of, failed_attempts_app.
  rewrite (protocol_no_failure_line _ (exchange_events_protocol cfg t e)).
  destruct (result_of (exchange cfg t e)); [ destruct (post e) | ]; reflexivity.
Qed.


Lemma legacy_delivers e :
  count is_heartbeat_log (events_of (Legacy.try_block e))
  = (if failed (result_of (Legacy.try_block e)) then 0 else 1)%nat.
Proof.
  destruct e as [[c s e1 e2] ws p r].
  unfold events_of, result_of, Legacy.try_block, try_catch, bind, external,
    emit, write_failures; simpl.
  destruct c, s, e1, p, e2; reflexivity.
Qed.

Lemma legacy_no_failure_line e :
  failed_attempts (events_of (Legacy.try_block e)) = [].
Proof.
  destruct e as [[c s e1 e2] ws p r].
  unfold events_of, Legacy.try_block, try_catch, bind, external, emit,
    write_failures; simpl.
  destruct c, s, e1, p, e2; reflexivity.
Qed.


Section Logs.

Variable cfg : Config.
Variable block : AttemptEnv -> M unit.
Hypothesis block_uniform : forall e, uniform (block e).
Hypothesis success_resets :
  forall e, failed (result_of (block e)) = false -> resets (block e) = true.
Hypothesis block_delivers :
  forall e, count is_heartbeat_log (events_of (block e))
            = (if failed (result_of (block e)) then 0 else 1)%nat.
Hypothesis block_no_failure_line :
  forall e, failed_attempts (events_of (block e)) = [].
Hypothesis block_posts_after_exchange :
  forall e, resets (block e) = false -> posts (events_of (block e)) = 0%nat.

Let cycle (env : Z -> AttemptEnv) : M bool :=
  retry_cycle cfg (fun a => block (env a)) (fun a => random (env a)).
Let indices : list Z := attempt_indices (ATTEMPTS_PER_CYCLE cfg).
Let events (env : Z -> AttemptEnv) : Z -> list event :=
  attempt_events cfg (fun a => block (env a)) (fun a => random (env a)).

Lemma jitter_is_silent a r :
  count is_heartbeat_log (jitter cfg a r) = 0%nat /\
  failed_attempts (jitter cfg a r) = [] /\
  posts (jitter cfg a r) = 0%nat.
Proof. unfold jitter; destruct (lt _ _); repeat split. Qed.

Lemma classification_is_silent n :
  count is_heartbeat_log [classify cfg n] = 0%nat /\
  failed_attempts [classify cfg n] = [] /\
  posts [classify cfg n] = 0%nat.
Proof. unfold classify; destruct (ge _ _); repeat split. Qed.

Lemma failed_attempt_logs env a :
  failed (result_of (block (env a))) = true ->
  count is_heartbeat_log (events env a) = 0%nat /\
  failed_attempts (events env a) = [a].
Proof.
  intro Hfail; unfold events, attempt_events.
  rewrite count_app, failed_attempts_app, block_delivers,
    block_no_failure_line, Hfail.
  destruct (result_of (block (env a))) as [ | err ]; [ discriminate | ].
  destruct (jitter_is_silent a (random (env a))) as (Hj1 & Hj2 & _).
  split.
  - change (LogAttemptFailed a err :: ?l) with ([LogAttemptFailed a err] ++ l).
    now rewrite count_app, Hj1.
  - simpl; now rewrite Hj2.
Qed.

Lemma failed_attempts_log env l :
  (forall a, In a l -> failed (result_of (block (env a))) = true) ->
  count is_heartbeat_log (flat_map (events env) l) = 0%nat /\
  failed_attempts (flat_map (events env) l) = l.
Proof.
  induction l as [ | a l IH ]; intro Hall; simpl; [ split; reflexivity | ].
  destruct (failed_attempt_logs env a) as [H1 H2]; [ apply Hall; now left | ].
  destruct IH as [IH1 IH2]; [ intros b Hb; apply Hall; now right | ].
  rewrite count_app, failed_attempts_app, H1, H2, IH1, IH2.
  split; reflexivity.
Qed.

Lemma successful_attempt_logs env a :
  failed (result_of (block (env a))) = false ->
  count is_heartbeat_log (events env a) = 1%nat /\
  failed_attempts (events env a) = [].
Proof.
  intro Hok; unfold events, attempt_events.
  rewrite count_app, failed_attempts_app, block_delivers,
    block_no_failure_line, Hok.
  destruct (result_of (block (env a))); [ | discriminate ].
  split; reflexivity.
Qed.

(** A cycle either fails in all its attempts or succeeds in one after
    failing in those before it. *)
Lemma cycle_cases env w :
  (fst (cycle env w) = Normal false /\
   (forall a, In a indices -> failed (result_of (block (env a))) = true) /\
   exists n,
     appended w (snd (cycle env w))
     = flat_map (events env) indices ++ [classify cfg n]) \/
  (fst (cycle env w) = Normal true /\
   exists pre a later,
     indices = pre ++ a :: later /\
     (forall b, In b pre -> failed (result_of (block (env b))) = true) /\
     failed (result_of (block (env a))) = false /\
     appended w (snd (cycle env w))
     = flat_map (events env) pre ++ events env a).
Proof.
  destruct (first_success (fun a => failed (result_of (block (env a)))) indices)
    as [ Hall | (pre & a & later & Heq & Hpre & Ha) ].
  - left; unfold cycle.
    rewrite (failed_cycle_form cfg block block_uniform env w Hall).
    cbv zeta; cbn [fst snd]; repeat split; [ exact Hall | ].
    eexists; apply appended_extension; reflexivity.
  - right; unfold cycle.
    rewrite (succeeded_cycle_form cfg block block_uniform env w pre a later
               Heq Hpre Ha).
    cbn [fst snd]; split; [ reflexivity | ].
    exists pre, a, later; repeat split; auto.
    rewrite appended_after_events, flat_map_app; simpl.
    now rewrite app_nil_r.
Qed.

Lemma heartbeat_log_iff_success env w :
  count is_heartbeat_log (appended w (snd (cycle env w)))
  = (match fst (cycle env w) with Normal true => 1 | _ => 0 end)%nat.
Proof.
  destruct (cycle_cases env w)
    as [ (-> & Hall & n & ->)
       | (-> & pre & a & later & _ & Hpre & Ha & ->) ];
    rewrite count_app.
  - destruct (failed_attempts_log env indices Hall) as [-> _].
    now destruct (classification_is_silent n) as (-> & _).
  - destruct (failed_attempts_log env pre Hpre) as [-> _].
    now destruct (successful_attempt_logs env a Ha) as [-> _].
Qed.

Lemma failure_lines_of_failed_cycle env w :
  fst (cycle env w) = Normal false ->
  failed_attempts (appended w (snd (cycle env w))) = indices.
Proof.
  intro Hdown.
  destruct (cycle_cases env w)
    as [ (_ & Hall & n & ->) | (Hup & _) ]; [ | congruence ].
  rewrite failed_attempts_app.
  destruct (failed_attempts_log env indices Hall) as [_ ->].
  destruct (classification_is_silent n) as (_ & -> & _).
  apply app_nil_r.
Qed.

Lemma failure_lines_are_a_prefix env w :
  exists later, indices = failed_attempts (appended w (snd (cycle env w))) ++ later.
Proof.
  destruct (cycle_cases env w)
    as [ (_ & Hall & n & ->)
       | (_ & pre & a & later & Heq & Hpre & Ha & ->) ];
    rewrite failed_attempts_app.
  - destruct (failed_attempts_log env indices Hall) as [_ ->].
    destruct (classification_is_silent n) as (_ & -> & _).
    exists []; now rewrite !app_nil_r.
  - destruct (failed_attempts_log env pre Hpre) as [_ ->].
    destruct (successful_attempt_logs env a Ha) as [_ ->].
    exists (a :: later); now rewrite app_nil_r.
Qed.


End Logs.



(** X12.  A cycle prints the heartbeat line exactly once when it returns
    [true] and never when it returns [false].  Both revisions. *)
Theorem heartbeat_line_iff_cycle_succeeds (cfg : Config)
  (env : Z -> AttemptEnv) (w : World) :
  count is_heartbeat_log (appended w (snd (checkServerWithRetry cfg env w)))
  = (match fst (checkServerWithRetry cfg env w) with
     | Normal true => 1
     | _ => 0
     end)%nat /\
  count is_heartbeat_log
    (appended w (snd (Legacy.checkServerWithRetry cfg env w)))
  = (match fst (Legacy.checkServerWithRetry cfg env w) with
     | Normal true => 1
     | _ => 0
     end)%nat.
Proof.
  split.
  - apply (heartbeat_log_iff_success cfg
             (try_block cfg (toLowerCase (RCON_TRANSPORT cfg)))).
    + intro e; apply uniform_try_block.
    + intro e; apply try_block_delivers.
    + intro e; apply try_block_no_failure_line.
  - apply (heartbeat_log_iff_success cfg Legacy.try_block).
    + apply uniform_legacy_try_block.
    + apply legacy_delivers.
    + apply legacy_no_failure_line.
Qed.

(** X13.  The attempt-failure lines of a cycle carry the attempt numbers
    1, 2, ... in order, one line per failed attempt: all of 1..K when the
    cycle returns [false], and a beginning of 1..K otherwise.  Both
    revisions. *)
Theorem failure_lines_number_the_attempts (cfg : Config)
  (env : Z -> AttemptEnv) (w : World) :
  let indices := attempt_indices (ATTEMPTS_PER_CYCLE cfg) in
  (fst (checkServerWithRetry cfg env w) = Normal false ->
   failed_attempts (appended w (snd (checkServerWithRetry cfg env w)))
   = indices) /\
  (exists later,
      indices
      = failed_attempts (appended w (snd (checkServerWithRetry cfg env w)))
        ++ later) /\
  (fst (Legacy.checkServerWithRetry cfg env w) = Normal false ->
   failed_attempts (appended w (snd (Legacy.checkServerWithRetry cfg env w)))
   = indices) /\
  (exists later,
      indices
      = failed_attempts
          (appended w (snd (Legacy.checkServerWithRetry cfg env w)))
        ++ later).
Proof.
  cbv zeta; split; [ | split; [ | split ] ].
  - apply (failure_lines_of_failed_cycle cfg
             (try_block cfg (toLowerCase (RCON_TRANSPORT cfg)))).
    + intro e; apply uniform_try_block.
    + intro e; apply try_block_delivers.
    + intro e; apply try_block_no_failure_line.
  - apply (failure_lines_are_a_prefix cfg
             (try_block cfg (toLowerCase (RCON_TRANSPORT cfg)))).
    + intro e; apply uniform_try_block.
    + intro e; apply try_block_delivers.
    + intro e; apply try_block_no_failure_line.
  - apply (failure_lines_of_failed_cycle cfg Legacy.try_block).
    + apply uniform_legacy_try_block.
    + apply legacy_delivers.
    + apply legacy_no_failure_line.
  - apply (failure_lines_are_a_prefix cfg Legacy.try_block).
    + apply uniform_legacy_try_block.
    + apply legacy_delivers.
    + apply legacy_no_failure_line.
Qed.

Lemma failure_lines_number_the_attempts_witness :
  failed_attempts
    (appended boot
       (snd (checkServerWithRetry (settings "web" 3 2)
               (fun _ => server_down) boot)))
  = [1; 2; 3].
Proof.
  destruct (failure_lines_number_the_attempts (settings "web" 3 2)
              (fun _ => server_down) boot) as [Hall _].
  exact (Hall eq_refl).
Defined.

(* ================================================================= *)
(** ** The counter over the life of the process *)

Lemma streak_monotone ups : forall c c', c <= c' -> streak c ups <= streak c' ups.
Proof.
  unfold streak; induction ups as [ | up ups IH ]; intros c c' Hc; simpl;
    [ assumption | ].
  apply IH; destruct up; lia.
Qed.

Section History.

Variable cfg : Config.
Variable block : AttemptEnv -> M unit.
Hypothesis block_uniform : forall e, uniform (block e).
Hypothesis success_resets :
  forall e, failed (result_of (block e)) = false -> resets (block e) = true.

Let cycle (env : Z -> AttemptEnv) : M bool :=
  retry_cycle cfg (fun a => block (env a)) (fun a => random (env a)).

Lemma cycle_counter_bound env w :
  0 <= consecutiveFailures w ->
  exists up w',
    cycle env w = (Normal up, w') /\
    0 <= consecutiveFailures w' /\
    consecutiveFailures w'
    <= (if up then 0 else consecutiveFailures w + 1).
Proof.
  intro Hpos.
  destruct (cycle_counter cfg block block_uniform success_resets env w)
    as [ [Hup Hzero] | [Hdown Hcount] ];
    fold (cycle env w) in *;
    destruct (cycle env w) as [r w'] eqn:Hrun; simpl in *; subst r.
  - exists true, w'; repeat split; lia.
  - exists false, w'; repeat split; rewrite Hcount;
      destruct (existsb _ _); lia.
Qed.

Lemma counter_within_streak envs :
  forall w, 0 <= consecutiveFailures w ->
  exists ups w',
    cycles cfg cycle envs w = (Normal ups, w') /\
    0 <= consecutiveFailures w' /\
    consecutiveFailures w' <= streak (consecutiveFailures w) ups.
Proof.
  induction envs as [ | env rest IH ]; intros w Hpos.
  - exists [], w; repeat split; simpl; auto; unfold streak; simpl; lia.
  - destruct (cycle_counter_bound env w Hpos) as (up & w1 & Hrun & Hpos1 & Hle).
    set (w2 := after_events false [Sleep (scale (of_int 1000) (CHECK_INTERVAL cfg))] w1).
    destruct (IH w2) as (ups & w' & Hrest & Hpos' & Hle'); [ exact Hpos1 | ].
    exists (up :: ups), w'.
    rewrite (cycles_cons cfg cycle env rest w up w1 Hrun); fold w2.
    rewrite Hrest; cbn [fst snd]; repeat split; auto.
    etransitivity; [ exact Hle' | ].
    change (streak (consecutiveFailures w) (up :: ups))
      with (streak (if up then 0 else consecutiveFailures w + 1) ups).
    apply streak_monotone; exact Hle.
Qed.

End History.

(** X14.  The counter never exceeds the number of failed cycles in a row:
    after any run of cycles from the start of the process it lies between
    0 and the length of the run of failures that ends the history, so it can
    reach the threshold only after that many consecutive failed cycles.
    Both revisions. *)
Theorem counter_never_exceeds_the_failures_in_a_row (cfg : Config)
  (envs : list (Z -> AttemptEnv)) :
  (exists ups w',
      loop cfg envs boot = (Normal ups, w') /\
      0 <= consecutiveFailures w' <= streak 0 ups) /\
  (exists ups w',
      cycles cfg (Legacy.checkServerWithRetry cfg) envs boot = (Normal ups, w') /\
      0 <= consecutiveFailures w' <= streak 0 ups).
Proof.
  split.
  - destruct (counter_within_streak cfg
                (try_block cfg (toLowerCase (RCON_TRANSPORT cfg)))
                (fun e => uniform_try_block _ _ e)
                (fun e => try_block_success_resets _ _ e) envs boot)
      as (ups & w' & Hrun & Hpos & Hle); [ simpl; lia | ].
    exists ups, w'; repeat split; assumption.
  - destruct (counter_within_streak cfg Legacy.try_block
                uniform_legacy_try_block legacy_success_resets envs boot)
      as (ups & w' & Hrun & Hpos & Hle); [ simpl; lia | ].
    exists ups, w'; repeat split; assumption.
Qed.



(* ================================================================= *)
(** ** The two revisions side by side *)

Lemma loop_same_blocks cfg (tb tb' : Z -> M unit) rnd l :
  (forall a, In a l -> forall w, tb a w = tb' a w) ->
  forall w, attempt_loop cfg tb rnd l w = attempt_loop cfg tb' rnd l w.
Proof.
  induction l as [ | a l IH ]; intros Hsame w; simpl; [ reflexivity | ].
  rewrite (Hsame a) by now left.
  destruct (tb' a w) as [[ | err] w1]; [ reflexivity | ].
  unfold bind; destruct (attempt_failed cfg a (rnd a) err w1) as [[ | ] w2];
    [ | reflexivity ].
  apply IH; intros b Hb; apply Hsame; now right.
Qed.

(** X16.  With the classic transport the current revision behaves exactly
    as the first one, as long as no heartbeat POST fails after a
    successful exchange. *)
Theorem revisions_agree_on_the_classic_transport (cfg : Config)
  (env : Z -> AttemptEnv) (w : World) :
  toLowerCase (RCON_TRANSPORT cfg) = "classic"%string ->
  (forall a, In a (attempt_indices (ATTEMPTS_PER_CYCLE cfg)) ->
             legacy_exchange_succeeds (env a) = true ->
             failed (post (env a)) = false) ->
  checkServerWithRetry cfg env w = Legacy.checkServerWithRetry cfg env w.
Proof.
  intros Hclassic Hpost.
  unfold checkServerWithRetry, Legacy.checkServerWithRetry, retry_cycle.
  rewrite Hclassic; cbv zeta.
  apply loop_same_blocks; intros a Ha w1.
  specialize (Hpost a Ha); revert Hpost.
  destruct (env a) as [[c s e1 e2] ws p r].
  unfold legacy_exchange_succeeds, try_block, exchange, Legacy.try_block,
    Classic.checkServerClassicRCON, try_catch, bind, external, emit,
    write_failures, ret, throw; simpl.
  destruct c as [ [] | ], s, e1 as [ [] | ], e2 as [ [] | ], p as [ [] | ];
    simpl; intro Hpost; try reflexivity; specialize (Hpost eq_refl);
    discriminate.
Qed.

Lemma revisions_agree_on_the_classic_transport_witness :
  checkServerWithRetry (settings "classic" 3 2) scenario_A boot
  = Legacy.checkServerWithRetry (settings "classic" 3 2) scenario_A boot.
Proof.
  apply revisions_agree_on_the_classic_transport; [ reflexivity | ].
  intros a _ _; unfold scenario_A; destruct (a =? 1); reflexivity.
Defined.

(** X17.  Where the revisions differ: when the exchange succeeds and the
    heartbeat POST throws, the first revision calls [rcon.end()] a second
    time, on the connection it has already ended, and throws the error of
    that call if it fails; the current revision ends the connection once
    and throws the error of the POST. *)
Theorem first_revision_ends_the_connection_twice (cfg : Config)
  (e : AttemptEnv) (w : World) (err : Error) :
  legacy_exchange_succeeds e = true ->
  post e = Throw err ->
  count is_rcon_end (appended w (snd (Legacy.try_block e w))) = 2%nat /\
  fst (Legacy.try_block e w)
  = match Classic.end_in_catch (classic e) with
    | Normal _ => Throw err
    | Throw endError => Throw endError
    end /\
  count is_rcon_end (appended w (snd (try_block cfg "classic" e w))) = 1%nat /\
  fst (try_block cfg "classic" e w) = Throw err.
Proof.
  intros Hok Hpost.
  rewrite (uniform_run _ (uniform_legacy_try_block e)).
  rewrite (uniform_run _ (uniform_try_block cfg "classic" e)).
  cbn [fst snd]; rewrite !appended_after_events.
  destruct e as [[c s e1 e2] ws p r]; simpl in Hpost; subst p.
  unfold legacy_exchange_succeeds in Hok; simpl in Hok.
  destruct c as [ [] | ]; [ | discriminate ].
  destruct s; [ | discriminate ].
  destruct e1 as [ [] | ]; [ | discriminate ].
  unfold result_of, events_of, try_block, exchange, Legacy.try_block,
    Classic.checkServerClassicRCON, try_catch, bind, external, emit,
    write_failures, ret, throw; simpl.
  destruct e2; repeat split.
Qed.

Lemma first_revision_ends_the_connection_twice_witness :
  count is_rcon_end
    (appended boot (snd (Legacy.try_block collector_down boot)))
  = 2%nat.
Proof.
  destruct (first_revision_ends_the_connection_twice (settings "classic" 3 2)
              collector_down boot
              (LibError "Request failed with status code 503")
              eq_refl eq_refl) as [Htwice _].
  exact Htwice.
Defined.

(* ================================================================= *)
(** ** Heartbeats over the life of the process *)

Section Beats.

Variable cfg : Config.
Variable block : AttemptEnv -> M unit.
Hypothesis block_uniform : forall e, uniform (block e).
Hypothesis block_delivers :
  forall e, count is_heartbeat_log (events_of (block e))
            = (if failed (result_of (block e)) then 0 else 1)%nat.
Hypothesis block_no_failure_line :
  forall e, failed_attempts (events_of (block e)) = [].

Let cycle (env : Z -> AttemptEnv) : M bool :=
  retry_cycle cfg (fun a => block (env a)) (fun a => random (env a)).

Lemma cycle_beats env w :
  exists up w' es,
    cycle env w = (Normal up, w') /\
    trace w' = trace w ++ es /\
    count is_heartbeat_log es = (if up then 1 else 0)%nat.
Proof.
  destruct (loop_returns cfg _ (fun a => random (env a))
              (fun b => block_uniform (env b))
              (attempt_indices (ATTEMPTS_PER_CYCLE cfg)) w)
    as (up & w' & Hrun).
  change (cycle env w = (Normal up, w')) in Hrun.
  destruct (loop_extends_trace cfg _ (fun a => random (env a))
              (fun b => block_uniform (env b))
              (attempt_indices (ATTEMPTS_PER_CYCLE cfg)) w)
    as (es & Hes).
  change (trace (snd (cycle env w)) = trace w ++ es) in Hes.
  assert (Hbeat : count is_heartbeat_log (appended w (snd (cycle env w)))
                  = (match fst (cycle env w) with Normal true => 1 | _ => 0 end)%nat)
    by exact (heartbeat_log_iff_success cfg block block_uniform block_delivers
                block_no_failure_line env w).
  rewrite Hrun in Hes, Hbeat; cbn [fst snd] in Hes, Hbeat.
  rewrite (appended_extension w w' es Hes) in Hbeat.
  exists up, w', es; split; [ exact Hrun | split; [ exact Hes | exact Hbeat ] ].
Qed.

Lemma cycles_beats envs :
  forall w,
  exists ups w' es,
    cycles cfg cycle envs w = (Normal ups, w') /\
    trace w' = trace w ++ es /\
    count is_heartbeat_log es = List.length (filter (fun up : bool => up) ups).
Proof.
  induction envs as [ | env rest IH ]; intro w.
  - exists [], w, []; repeat split; simpl; now rewrite ?app_nil_r.
  - destruct (cycle_beats env w) as (up & w1 & es1 & Hrun & Hes1 & Hc1).
    set (w2 := after_events false [Sleep (scale (of_int 1000) (CHECK_INTERVAL cfg))] w1).
    destruct (IH w2) as (ups & w' & es2 & Hrest & Hes2 & Hc2).
    exists (up :: ups), w', (es1 ++ [Sleep (scale (of_int 1000) (CHECK_INTERVAL cfg))] ++ es2).
    rewrite (cycles_cons cfg cycle env rest w up w1 Hrun); fold w2.
    rewrite Hrest; cbn [fst snd]; repeat split.
    + rewrite Hes2; subst w2; simpl; rewrite Hes1.
      now rewrite <- !app_assoc.
    + rewrite !count_app, Hc1, Hc2.
      destruct up; simpl; reflexivity.
Qed.

End Beats.

(** X18.  Over any number of cycles of the process, the heartbeat line is
    printed exactly as many times as cycles returned [true]: one delivered
    heartbeat per successful cycle, none for a failed one.  Both
    revisions. *)
Theorem one_heartbeat_per_successful_cycle (cfg : Config)
  (envs : list (Z -> AttemptEnv)) :
  (exists ups w',
      loop cfg envs boot = (Normal ups, w') /\
      count is_heartbeat_log (trace w')
      = List.length (filter (fun up : bool => up) ups)) /\
  (exists ups w',
      cycles cfg (Legacy.checkServerWithRetry cfg) envs boot = (Normal ups, w') /\
      count is_heartbeat_log (trace w')
      = List.length (filter (fun up : bool => up) ups)).
Proof.
  split.
  - destruct (cycles_beats cfg
                (try_block cfg (toLowerCase (RCON_TRANSPORT cfg)))
                (fun e => uniform_try_block _ _ e)
                (fun e => try_block_delivers _ _ e)
                (fun e => try_block_no_failure_line _ _ e) envs boot)
      as (ups & w' & es & Hrun & Hes & Hcount).
    exists ups, w'; split; [ exact Hrun | ].
    now rewrite Hes.
  - destruct (cycles_beats cfg Legacy.try_block uniform_legacy_try_block
                legacy_delivers legacy_no_failure_line envs boot)
      as (ups & w' & es & Hrun & Hes & Hcount).
    exists ups, w'; split; [ exact Hrun | ].
    now rewrite Hes.
Qed.
